(** * CryptoVault wallet core: key management, PIN cipher and unlock screen

    A shallow embedding of [core/wallet.ts] (generation, import, derivation,
    PIN "encryption", secure-storage persistence, wipe) and of the PIN entry
    logic of [UnlockScreen.tsx], together with the properties the design
    document states about them. *)

From Stdlib Require Import ZArith Lia Ascii String.
From stdpp Require Import gmap strings list fin_maps.

Local Open Scope Z_scope.

(** ** JavaScript values used by the wallet core *)

Module JS.

(** A JavaScript string is a sequence of UTF-16 code units. *)
Abbreviation jsstring := (list Z) (only parsing).

Definition code_unit (c : Z) : Prop := 0 <= c < 65536.
Definition latin1 (c : Z) : Prop := 0 <= c < 256.

Definition of_ascii (a : ascii) : Z := Z.of_N (N_of_ascii a).

Fixpoint of_string (s : string) : jsstring :=
  match s with
  | EmptyString => []
  | String a s' => of_ascii a :: of_string s'
  end.

(** Exceptions a call can raise. [Error msg] is [new Error(msg)]. *)
Inductive exn :=
| Error (message : string)
| RangeError
| TypeError.

Inductive result (A : Type) :=
| Ok (a : A)
| Throw (e : exn).
Arguments Ok {A} a.
Arguments Throw {A} e.

Definition bind {A B} (r : result A) (k : A -> result B) : result B :=
  match r with
  | Ok a => k a
  | Throw e => Throw e
  end.

(** The Number values that [Math.ceil(a.length / b.length)] can take. *)
Inductive number :=
| Finite (n : Z)
| Infinity
| NaN.

(** [Math.ceil(a / b)] for two string lengths: [0/0] is [NaN], [a/0] is
    [Infinity] for [a > 0]. *)
Definition Math_ceil_div (a b : nat) : number :=
  match b, a with
  | O, O => NaN
  | O, S _ => Infinity
  | S _, _ => Finite ((Z.of_nat a + Z.of_nat b - 1) / Z.of_nat b)
  end.

(** [String.prototype.repeat(count)]: [NaN] converts to [0], a negative or
    infinite count is a [RangeError]. *)
Definition repeat (s : jsstring) (count : number) : result jsstring :=
  match count with
  | NaN => Ok []
  | Infinity => Throw RangeError
  | Finite n =>
      if n <? 0 then Throw RangeError
      else Ok (concat (replicate (Z.to_nat n) s))
  end.

(** [s.slice(0, n)] for [0 <= n]. *)
Definition slice0 (s : jsstring) (n : nat) : jsstring := take n s.

(** [s.charCodeAt(i)] as the operand of [^]: out of range it is [NaN],
    which [^] converts to [0]. *)
Definition charCodeAt (s : jsstring) (i : nat) : Z := nth i s 0.

(** [String.fromCharCode(n)] keeps the low 16 bits of [n]. *)
Definition fromCharCode (n : Z) : Z := Z.land n 65535.

(** White space and line terminators removed by [String.prototype.trim]. *)
Definition is_white_space (c : Z) : bool :=
  ((9 <=? c) && (c <=? 13)) || (c =? 32) || (c =? 160) || (c =? 5760)
  || ((8192 <=? c) && (c <=? 8202)) || (c =? 8232) || (c =? 8233)
  || (c =? 8239) || (c =? 8287) || (c =? 12288) || (c =? 65279).

Fixpoint trim_start (s : jsstring) : jsstring :=
  match s with
  | [] => []
  | c :: s' => if is_white_space c then trim_start s' else s
  end.

Definition trim_end (s : jsstring) : jsstring := rev (trim_start (rev s)).

Definition trim (s : jsstring) : jsstring := trim_end (trim_start s).

(** [s.startsWith("0x")] *)
Definition starts_with_0x (s : jsstring) : bool :=
  match s with
  | 48 :: 120 :: _ => true
  | _ => false
  end.

End JS.
Import JS.

Notation "x <- r ;; k" := (JS.bind r (fun x => k))
  (at level 100, r at next level, right associativity).

(** ** Buffer: the 'binary' and 'base64' encodings

    [Buffer] comes from the platform.  'binary' (latin1) keeps the low byte of
    every code unit on the way in and maps every byte to the code unit of the
    same value on the way out.  'base64' output is the padded standard
    alphabet; input is read leniently: it ends at the first [=], characters
    outside the alphabet are skipped, and the URL-safe [-] and [_] are
    accepted. *)

Module Buffer.

Definition from_binary (s : jsstring) : list Z := map (fun c => Z.land c 255) s.
Definition toString_binary (bytes : list Z) : jsstring := bytes.

Definition b64_char (v : Z) : Z :=
  if v <? 26 then 65 + v
  else if v <? 52 then 97 + (v - 26)
  else if v <? 62 then 48 + (v - 52)
  else if v =? 62 then 43
  else 47.

Definition b64_value (c : Z) : option Z :=
  if (65 <=? c) && (c <=? 90) then Some (c - 65)
  else if (97 <=? c) && (c <=? 122) then Some (c - 71)
  else if (48 <=? c) && (c <=? 57) then Some (c + 4)
  else if (c =? 43) || (c =? 45) then Some 62
  else if (c =? 47) || (c =? 95) then Some 63
  else None.

Fixpoint toString_base64 (bytes : list Z) : jsstring :=
  match bytes with
  | [] => []
  | [a] =>
      [b64_char (Z.shiftr a 2); b64_char (Z.shiftl (Z.land a 3) 4); 61; 61]
  | [a; b] =>
      [b64_char (Z.shiftr a 2);
       b64_char (Z.lor (Z.shiftl (Z.land a 3) 4) (Z.shiftr b 4));
       b64_char (Z.shiftl (Z.land b 15) 2); 61]
  | a :: b :: c :: rest =>
      b64_char (Z.shiftr a 2)
      :: b64_char (Z.lor (Z.shiftl (Z.land a 3) 4) (Z.shiftr b 4))
      :: b64_char (Z.lor (Z.shiftl (Z.land b 15) 2) (Z.shiftr c 6))
      :: b64_char (Z.land c 63)
      :: toString_base64 rest
  end.

Fixpoint b64_sextets (s : jsstring) : list Z :=
  match s with
  | [] => []
  | c :: s' =>
      if c =? 61 then []
      else match b64_value c with
           | Some v => v :: b64_sextets s'
           | None => b64_sextets s'
           end
  end.

Fixpoint b64_bytes (vs : list Z) : list Z :=
  match vs with
  | a :: b :: c :: d :: rest =>
      Z.lor (Z.shiftl a 2) (Z.shiftr b 4)
      :: Z.lor (Z.shiftl (Z.land b 15) 4) (Z.shiftr c 2)
      :: Z.lor (Z.shiftl (Z.land c 3) 6) d
      :: b64_bytes rest
  | [a; b; c] =>
      [Z.lor (Z.shiftl a 2) (Z.shiftr b 4);
       Z.lor (Z.shiftl (Z.land b 15) 4) (Z.shiftr c 2)]
  | [a; b] => [Z.lor (Z.shiftl a 2) (Z.shiftr b 4)]
  | _ => []
  end.

Definition from_base64 (s : jsstring) : list Z := b64_bytes (b64_sextets s).

End Buffer.

(** ** wallet.ts: the PIN cipher *)

(** [pin.repeat(Math.ceil(text.length / pin.length)).slice(0, text.length)] *)
Definition pin_key (text pin : jsstring) : result jsstring :=
  rep <- JS.repeat pin (Math_ceil_div (length text) (length pin)) ;;
  Ok (slice0 rep (length text)).

(** The loop [for (i = 0; i < text.length; i++) result += fromCharCode(text[i] ^ key[i])]. *)
Definition xor_loop (text key : jsstring) : jsstring :=
  foldl (fun result i =>
           result ++ [fromCharCode (Z.lxor (charCodeAt text i) (charCodeAt key i))])
        [] (seq 0 (length text)).

Definition encryptWithPin (text pin : jsstring) : result jsstring :=
  key <- pin_key text pin ;;
  Ok (Buffer.toString_base64 (Buffer.from_binary (xor_loop text key))).

Definition decryptWithPin (encoded pin : jsstring) : result jsstring :=
  let text := Buffer.toString_binary (Buffer.from_base64 encoded) in
  key <- pin_key text pin ;;
  Ok (xor_loop text key).


(** ** Secure storage: Keychain and EncryptedStorage

    Both are key-value stores of the platform.  [getGenericPassword] resolves
    to [false] when the service holds nothing, [getItem] to [null] for a key
    that is absent. *)

Record Credentials := { username : string; password : jsstring }.

Record Device := {
  keychain : gmap string Credentials;
  encrypted_storage : gmap string jsstring
}.

Definition empty_device : Device := {| keychain := ∅; encrypted_storage := ∅ |}.

(** An [async] function reads and writes the device stores and either
    resolves to a value or rejects; what it wrote before rejecting stays. *)
Definition async (A : Type) : Type := Device -> result A * Device.

Definition resolve {A} (a : A) : async A := fun d => (Ok a, d).
Definition reject {A} (e : exn) : async A := fun d => (Throw e, d).
Definition lift {A} (r : result A) : async A := fun d => (r, d).

Definition await {A B} (m : async A) (k : A -> async B) : async B :=
  fun d => match m d with
           | (Ok a, d') => k a d'
           | (Throw e, d') => (Throw e, d')
           end.

Notation "x <~ m ;; k" := (await m (fun x => k))
  (at level 100, m at next level, right associativity).

Module Keychain.

Definition setGenericPassword (user : string) (pass : jsstring) (service : string)
  : async bool :=
  fun d => (Ok true,
            {| keychain := <[service := {| username := user; password := pass |}]> (keychain d);
               encrypted_storage := encrypted_storage d |}).

Definition getGenericPassword (service : string) : async (option Credentials) :=
  fun d => (Ok (keychain d !! service), d).

Definition resetGenericPassword (service : string) : async bool :=
  fun d => (Ok true,
            {| keychain := delete service (keychain d);
               encrypted_storage := encrypted_storage d |}).

End Keychain.

Module EncryptedStorage.

Definition setItem (key : string) (value : jsstring) : async unit :=
  fun d => (Ok tt,
            {| keychain := keychain d;
               encrypted_storage := <[key := value]> (encrypted_storage d) |}).

Definition getItem (key : string) : async (option jsstring) :=
  fun d => (Ok (encrypted_storage d !! key), d).

Definition removeItem (key : string) : async unit :=
  fun d => (Ok tt,
            {| keychain := keychain d;
               encrypted_storage := delete key (encrypted_storage d) |}).

End EncryptedStorage.

(** ** constants/chains.ts *)

Record Chain := {
  id : Z;
  name : string;
  symbol : string;
  rpcUrl : string;
  explorerUrl : string;
  iconColor : string;
  decimals : Z;
  isTestnet : option bool
}.

Definition CHAINS : gmap string Chain :=
  <["ethereum"%string :=
      {| id := 1; name := "Ethereum"; symbol := "ETH";
         rpcUrl := "https://ethereum.publicnode.com";
         explorerUrl := "https://etherscan.io";
         iconColor := "#627EEA"; decimals := 18; isTestnet := None |}]>
  (<["bsc"%string :=
      {| id := 56; name := "BNB Smart Chain"; symbol := "BNB";
         rpcUrl := "https://bsc-dataseed.binance.org";
         explorerUrl := "https://bscscan.com";
         iconColor := "#F0B90B"; decimals := 18; isTestnet := None |}]>
  (<["polygon"%string :=
      {| id := 137; name := "Polygon"; symbol := "MATIC";
         rpcUrl := "https://polygon-rpc.com";
         explorerUrl := "https://polygonscan.com";
         iconColor := "#8247E5"; decimals := 18; isTestnet := None |}]> ∅)).

(** [CHAINS] is a plain object: besides its own keys it answers to the
    property names it inherits from [Object.prototype], whose values are
    functions (the prototype object itself for [__proto__]) and have no
    [rpcUrl]. *)
Definition Object_prototype_keys : list string :=
  ["constructor"; "hasOwnProperty"; "isPrototypeOf"; "propertyIsEnumerable";
   "toLocaleString"; "toString"; "valueOf"; "__proto__";
   "__defineGetter__"; "__defineSetter__"; "__lookupGetter__";
   "__lookupSetter__"]%string.

(** [CHAINS[chainKey].rpcUrl]: the URL of a configured chain; [undefined] for
    an inherited property name; and a [TypeError] for any other key, for
    which [CHAINS[chainKey]] is [undefined]. *)
Definition CHAINS_rpcUrl (chainKey : string) : result (option string) :=
  match CHAINS !! chainKey with
  | Some chain => Ok (Some (rpcUrl chain))
  | None =>
      if decide (chainKey ∈ Object_prototype_keys) then Ok None else Throw TypeError
  end.

(** ** wallet.ts: constants and types *)

Definition MNEMONIC_SERVICE : string := "com.trustclone.mnemonic".
Definition WALLET_META_KEY : string := "wallet_meta".

Record WalletMeta := {
  address : jsstring;
  createdAt : Z;
  backupVerified : bool
}.

Definition DERIVATION_PATH : string := "m/44'/60'/0'/0/0".

(** ** Hexadecimal strings *)

Module Hex.

Definition digit (v : Z) : Z := if v <? 10 then 48 + v else 87 + v.

Definition digit_value (c : Z) : option Z :=
  if (48 <=? c) && (c <=? 57) then Some (c - 48)
  else if (97 <=? c) && (c <=? 102) then Some (c - 87)
  else if (65 <=? c) && (c <=? 70) then Some (c - 55)
  else None.

(** The [n] lowest hexadecimal digits of [v], most significant first. *)
Fixpoint digits (n : nat) (v : Z) : jsstring :=
  match n with
  | O => []
  | S n' => digit ((v / 16 ^ Z.of_nat n') mod 16) :: digits n' v
  end.

Fixpoint value_from (acc : Z) (s : jsstring) : option Z :=
  match s with
  | [] => Some acc
  | c :: s' =>
      match digit_value c with
      | Some v => value_from (16 * acc + v) s'
      | None => None
      end
  end.

Definition value (s : jsstring) : option Z := value_from 0 s.

End Hex.

(** ** The ethers collaborator

    Elliptic-curve and hashing work is left abstract: [derive_scalar] stands
    for BIP-32/BIP-44 derivation of a phrase's private scalar at a path, and
    [computeAddress] for the checksummed address of a private scalar. *)

Module ethers.

Class Crypto := {
  derive_scalar : jsstring -> string -> result Z;
  computeAddress : Z -> jsstring
}.

(** Order of the secp256k1 group: private scalars lie strictly between 0 and it. *)
Definition secp256k1_n : Z :=
  0xFFFFFFFFFFFFFFFFFFFFFFFFFFFFFFFEBAAEDCE6AF48A03BBFD25E8CD0364141.

Class CryptoLaws `{Crypto} := {
  derive_scalar_range :
    forall phrase path k, derive_scalar phrase path = Ok k -> 0 < k < secp256k1_n
}.

(** The form in which ethers holds a private key: [0x] followed by the 64
    lower-case hex digits of the 32-byte scalar. *)
Definition hexlify32 (k : Z) : jsstring := 48 :: 120 :: Hex.digits 64 k.

(** [new ethers.JsonRpcProvider(url)]; built with [undefined] for a URL the
    provider is the one of the library's default endpoint. *)
Inductive Provider :=
| JsonRpcProvider (url : string)
| JsonRpcProvider_default.

Definition new_JsonRpcProvider (url : option string) : Provider :=
  match url with
  | Some u => JsonRpcProvider u
  | None => JsonRpcProvider_default
  end.

Definition InvalidPrivateKey : exn := Error "invalid private key".

(** Modelled from the spec: the private-key check of the ethers [Wallet]
    constructor is not among the sources.  Section 4.1 has it validate the
    hex format (0x-prefixed, 64 hex chars) and reject malformed hex and
    out-of-range scalars with [InvalidPrivateKey]. *)
Definition private_scalar (key : jsstring) : option Z :=
  if starts_with_0x key && (length (drop 2 key) =? 64)%nat then
    match Hex.value (drop 2 key) with
    | Some k => if (0 <? k) && (k <? secp256k1_n) then Some k else None
    | None => None
    end
  else None.

Module HDNodeWallet.

Record t := { privateKey : jsstring; address : jsstring }.

(** [HDNodeWallet.fromPhrase(phrase, undefined, path)] *)
Definition fromPhrase `{Crypto} (phrase : jsstring) (path : string) : result t :=
  k <- derive_scalar phrase path ;;
  Ok {| privateKey := hexlify32 k; address := computeAddress k |}.

End HDNodeWallet.

Module Wallet.

Record t := { privateKey : jsstring; address : jsstring; provider : option Provider }.

(** [new ethers.Wallet(key, provider)] *)
Definition new `{Crypto} (key : jsstring) (p : option Provider) : result t :=
  match private_scalar key with
  | Some k => Ok {| privateKey := key; address := computeAddress k; provider := p |}
  | None => Throw InvalidPrivateKey
  end.

End Wallet.

End ethers.

(** ** The bip39 collaborator

    The bip39 package is not among the sources; its functions are modelled
    from section 4.1 of the design document, which refers to BIP-39: the
    entropy followed by the first ENT/32 bits of its SHA-256 hash is cut into
    11-bit indices into a list of 2048 words, and the words are joined by
    single spaces.  The word list and the hash are parameters. *)

Module bip39.

Class Params := {
  wordlist : list jsstring;
  sha256 : list Z -> list Z
}.

Class ParamsLaws `{Params} := {
  wordlist_length : length wordlist = 2048%nat;
  wordlist_NoDup : NoDup wordlist;
  wordlist_no_space : Forall (fun w => 32 ∉ w) wordlist;
  sha256_length : forall m, length (sha256 m) = 32%nat
}.

(** [width] bits of [v], most significant first. *)
Fixpoint bits_of (width : nat) (v : Z) : list bool :=
  match width with
  | O => []
  | S w => Z.testbit v (Z.of_nat w) :: bits_of w v
  end.

Definition value_of (bits : list bool) : Z :=
  foldl (fun acc b => 2 * acc + Z.b2z b) 0 bits.

Definition bytesToBinary (bytes : list Z) : list bool :=
  concat (map (bits_of 8) bytes).

Fixpoint chunks_fuel {A} (fuel n : nat) (l : list A) : list (list A) :=
  match fuel with
  | O => []
  | S fuel' =>
      match l with
      | [] => []
      | _ :: _ => take n l :: chunks_fuel fuel' n (drop n l)
      end
  end.

(** [l] cut into pieces of [n] elements, the last one possibly shorter. *)
Definition chunks {A} (n : nat) (l : list A) : list (list A) :=
  chunks_fuel (length l) n l.

Fixpoint split_space (s : jsstring) : list jsstring :=
  match s with
  | [] => [[]]
  | c :: s' =>
      if c =? 32 then [] :: split_space s'
      else match split_space s' with
           | w :: ws => (c :: w) :: ws
           | [] => [[c]]
           end
  end.

Definition join_space (ws : list jsstring) : jsstring :=
  match ws with
  | [] => []
  | w :: ws' => w ++ concat (map (fun w' => 32 :: w') ws')
  end.

Fixpoint indexOf (w : jsstring) (l : list jsstring) : option nat :=
  match l with
  | [] => None
  | x :: l' => if decide (x = w) then Some O else S <$> indexOf w l'
  end.

Definition INVALID_MNEMONIC : exn := Error "Invalid mnemonic".
Definition INVALID_ENTROPY : exn := Error "Invalid entropy".
Definition INVALID_CHECKSUM : exn := Error "Invalid mnemonic checksum".

Definition entropy_length_ok (n : nat) : bool :=
  (16 <=? n)%nat && (n <=? 32)%nat && (n mod 4 =? 0)%nat.

Definition deriveChecksumBits `{Params} (entropy : list Z) : list bool :=
  take (length entropy * 8 / 32) (bytesToBinary (sha256 entropy)).

(** Modelled from the spec: bip39's [entropyToMnemonic] is not among the
    sources; this is the BIP-39 encoding of 16 to 32 bytes of entropy. *)
Definition entropyToMnemonic `{Params} (entropy : list Z) : result jsstring :=
  if entropy_length_ok (length entropy) then
    let bits := bytesToBinary entropy ++ deriveChecksumBits entropy in
    let words := map (fun chunk => nth (Z.to_nat (value_of chunk)) wordlist [])
                     (chunks 11 bits) in
    Ok (join_space words)
  else Throw INVALID_ENTROPY.

Fixpoint word_indices `{Params} (words : list jsstring) : option (list nat) :=
  match words with
  | [] => Some []
  | w :: ws =>
      match indexOf w wordlist, word_indices ws with
      | Some i, Some rest => Some (i :: rest)
      | _, _ => None
      end
  end.

(** Modelled from the spec: bip39's [mnemonicToEntropy] is not among the
    sources; this decodes a phrase per BIP-39, checking word-list membership
    and the checksum. *)
Definition mnemonicToEntropy `{Params} (mnemonic : jsstring) : result (list Z) :=
  let words := split_space mnemonic in
  if negb (length words mod 3 =? 0)%nat then Throw INVALID_MNEMONIC
  else match word_indices words with
       | None => Throw INVALID_MNEMONIC
       | Some indices =>
           let bits := concat (map (fun i => bits_of 11 (Z.of_nat i)) indices) in
           let dividerIndex := (length bits / 33 * 32)%nat in
           let entropyBits := take dividerIndex bits in
           let checksumBits := drop dividerIndex bits in
           let entropy := map value_of (chunks 8 entropyBits) in
           if negb (entropy_length_ok (length entropy)) then Throw INVALID_ENTROPY
           else if decide (deriveChecksumBits entropy = checksumBits) then Ok entropy
           else Throw INVALID_CHECKSUM
       end.

(** Modelled from the spec: bip39's [validateMnemonic] is not among the
    sources; section 4.1 has it check word-list membership and checksum per
    BIP-39. *)
Definition validateMnemonic `{Params} (mnemonic : jsstring) : bool :=
  match mnemonicToEntropy mnemonic with
  | Ok _ => true
  | Throw _ => false
  end.

(** Modelled from the spec: bip39's [generateMnemonic] is not among the
    sources; section 4.1 has it produce a BIP-39 phrase from [strength] bits
    of randomness.  [rng size] is the random source: it returns [size] fresh
    bytes. *)
Definition generateMnemonic `{Params} (strength : nat) (rng : nat -> list Z)
  : result jsstring :=
  if negb (strength mod 32 =? 0)%nat then Throw TypeError
  else entropyToMnemonic (rng (strength / 8)%nat).

End bip39.

(** [JSON.stringify] and [JSON.parse] at [WalletMeta]. *)
Class JSON := {
  JSON_stringify : WalletMeta -> jsstring;
  JSON_parse : jsstring -> result WalletMeta
}.

(** ** wallet.ts: the wallet core *)

Definition InvalidMnemonic : exn := Error "Invalid mnemonic phrase".
Definition NoWalletStored : exn := Error "No wallet stored on this device".

Section WalletCore.
Context `{ethers.Crypto} `{bip39.Params} `{JSON}.

Definition deriveAddress (mnemonic : jsstring) : async jsstring :=
  hdNode <~ lift (ethers.HDNodeWallet.fromPhrase mnemonic DERIVATION_PATH) ;;
  resolve (ethers.HDNodeWallet.address hdNode).

Definition generateWallet (rng : nat -> list Z) : async (jsstring * jsstring) :=
  mnemonic <~ lift (bip39.generateMnemonic 128 rng) ;;
  address <~ deriveAddress mnemonic ;;
  resolve (mnemonic, address).

Definition importFromMnemonic (mnemonic : jsstring) : async jsstring :=
  if negb (bip39.validateMnemonic (trim mnemonic)) then reject InvalidMnemonic
  else deriveAddress (trim mnemonic).

Definition importFromPrivateKey (privateKey : jsstring) : async jsstring :=
  wallet <~ lift (ethers.Wallet.new (trim privateKey) None) ;;
  resolve (ethers.Wallet.address wallet).

Definition saveMnemonic (mnemonic pin : jsstring) : async unit :=
  encrypted <~ lift (encryptWithPin mnemonic pin) ;;
  _ <~ Keychain.setGenericPassword MNEMONIC_SERVICE encrypted MNEMONIC_SERVICE ;;
  resolve tt.

Definition loadMnemonic (pin : jsstring) : async jsstring :=
  result <~ Keychain.getGenericPassword MNEMONIC_SERVICE ;;
  match result with
  | None => reject NoWalletStored
  | Some credentials => lift (decryptWithPin (password credentials) pin)
  end.

Definition saveWalletMeta (meta : WalletMeta) : async unit :=
  EncryptedStorage.setItem WALLET_META_KEY (JSON_stringify meta).

(** [raw ? JSON.parse(raw) : null]: [null] and the empty string are falsy. *)
Definition loadWalletMeta : async (option WalletMeta) :=
  raw <~ EncryptedStorage.getItem WALLET_META_KEY ;;
  match raw with
  | Some (c :: s) => meta <~ lift (JSON_parse (c :: s)) ;; resolve (Some meta)
  | Some [] | None => resolve None
  end.

Definition deleteWallet : async unit :=
  _ <~ Keychain.resetGenericPassword MNEMONIC_SERVICE ;;
  EncryptedStorage.removeItem WALLET_META_KEY.

Definition getSigner (chainKey : string) (pin : jsstring) : async ethers.Wallet.t :=
  mnemonic <~ loadMnemonic pin ;;
  url <~ lift (CHAINS_rpcUrl chainKey) ;;
  let provider := ethers.new_JsonRpcProvider url in
  hdNode <~ lift (ethers.HDNodeWallet.fromPhrase mnemonic DERIVATION_PATH) ;;
  lift (ethers.Wallet.new (ethers.HDNodeWallet.privateKey hdNode) (Some provider)).

End WalletCore.

(** ** UnlockScreen.tsx: PIN entry *)

Module UnlockScreen.

Definition PIN_LENGTH : nat := 6.

(** The backspace key of the pad, U+232B. *)
Definition BACKSPACE : jsstring := [9003].

(** What the screen does besides updating its state: [Vibration.vibrate],
    the two alerts of [tryUnlock], and the navigation to the main tabs. *)
Inductive effect :=
| Vibrate
| AlertTooManyAttempts
| AlertWrongPIN (remaining : nat)
| NavigateMain.

Record state := { pin : jsstring; loading : bool; attempts : nat }.

Record app := {
  device : Device;
  isUnlocked : bool;
  screen : state;
  effects : list effect
}.

Definition initial (d : Device) : app :=
  {| device := d; isUnlocked := false;
     screen := {| pin := []; loading := false; attempts := 0 |};
     effects := [] |}.

Definition tryUnlock (enteredPin : jsstring) (a : app) : app :=
  match loadMnemonic enteredPin (device a) with
  | (Ok _, d') =>
      {| device := d'; isUnlocked := true;
         screen := {| pin := pin (screen a); loading := false;
                      attempts := attempts (screen a) |};
         effects := effects a ++ [NavigateMain] |}
  | (Throw _, d') =>
      let newAttempts := (attempts (screen a) + 1)%nat in
      {| device := d'; isUnlocked := isUnlocked a;
         screen := {| pin := []; loading := false; attempts := newAttempts |};
         effects := effects a ++
           [Vibrate;
            if (5 <=? newAttempts)%nat then AlertTooManyAttempts
            else AlertWrongPIN (5 - newAttempts)] |}
  end.

Definition setPin (p : jsstring) (a : app) : app :=
  {| device := device a; isUnlocked := isUnlocked a;
     screen := {| pin := p; loading := loading (screen a);
                  attempts := attempts (screen a) |};
     effects := effects a |}.

(** The device stores are shared with the other screens: [onDevice f a] is the
    application after another screen ran [f] on them. *)
Definition onDevice {A} (f : async A) (a : app) : app :=
  {| device := snd (f (device a)); isUnlocked := isUnlocked a;
     screen := screen a; effects := effects a |}.

Definition handleKey (key : jsstring) (a : app) : app :=
  if loading (screen a) then a
  else if decide (key = BACKSPACE) then setPin (removelast (pin (screen a))) a
  else if (PIN_LENGTH <=? length (pin (screen a)))%nat then a
  else
    let next := pin (screen a) ++ key in
    if (length next =? PIN_LENGTH)%nat then tryUnlock next (setPin next a)
    else setPin next a.

End UnlockScreen.

(** ** Error messages

    [e.message] of an [Error] is the text it was built with; the texts of the
    built-in range and type errors are the engine's. *)

Class Engine := {
  RangeError_message : string;
  TypeError_message : string
}.

Definition message `{Engine} (e : exn) : string :=
  match e with
  | Error m => m
  | RangeError => RangeError_message
  | TypeError => TypeError_message
  end.

(** [e.message || fallback]: the empty string is falsy. *)
Definition message_or `{Engine} (e : exn) (fallback : string) : string :=
  match message e with
  | EmptyString => fallback
  | String _ _ as m => m
  end.

(** ** wallet.ts: providers and balances *)

(** The network behind a provider: [provider.getBalance(address)], already
    formatted by [ethers.formatEther]. *)
Class Network := {
  getBalance : ethers.Provider -> jsstring -> result jsstring
}.

Definition getProvider (chainKey : string) : result ethers.Provider :=
  url <- CHAINS_rpcUrl chainKey ;;
  Ok (ethers.new_JsonRpcProvider url).

Definition getNativeBalance `{Network} (address : jsstring) (chainKey : string)
  : result jsstring :=
  provider <- getProvider chainKey ;;
  getBalance provider address.

(** [CHAIN_KEYS = Object.keys(CHAINS)], in the order the keys are written. *)
Definition CHAIN_KEYS : list string := ["ethereum"; "bsc"; "polygon"]%string.

(** ** AppNavigator.tsx: navigation types and the initial route *)

(** The parameters of the SetPin route. *)
Record SetPinParams := {
  param_mnemonic : option jsstring;
  param_privateKey : option jsstring;
  isNew : bool
}.

Module AppNavigator.

Inductive route := Auth | Main.

Inductive view := Loader | Navigator (initialRoute : route).

(** [hasWallet = !!meta]; the route is Main only with a wallet that is
    unlocked. *)
Definition initialRoute (meta : option WalletMeta) (isUnlocked : bool) : route :=
  let hasWallet := match meta with Some _ => true | None => false end in
  if negb hasWallet then Auth
  else if negb isUnlocked then Auth
  else Main.

Definition render (meta : option WalletMeta) (isUnlocked isLoading : bool) : view :=
  if isLoading then Loader else Navigator (initialRoute meta isUnlocked).

End AppNavigator.

(** ** walletStore.ts: the global store

    Token assets and the USD total are only held by the store, never
    inspected: their types are parameters. *)

Module walletStore.

Inductive TxStatus := pending | confirmed | failed.
Inductive TxType := send | receive | swap | approve.

Record Transaction := {
  hash : jsstring;
  from : jsstring;
  to : jsstring;
  value : jsstring;
  timestamp : Z;
  status : TxStatus;
  type : TxType;
  chainKey : string
}.

Definition with_status (st : TxStatus) (tx : Transaction) : Transaction :=
  {| hash := hash tx; from := from tx; to := to tx; value := value tx;
     timestamp := timestamp tx; status := st; type := type tx;
     chainKey := chainKey tx |}.

Section Store.
Context {TokenAsset Num : Type}.

Record WalletState := {
  meta : option WalletMeta;
  isUnlocked : bool;
  activeChain : string;
  nativeBalances : gmap string jsstring;
  assets : list TokenAsset;
  totalUsdValue : Num;
  transactions : list Transaction;
  isLoading : bool;
  error : option string
}.

(** [initialState]; [zero] is the number 0. *)
Definition initialState (zero : Num) : WalletState :=
  {| meta := None; isUnlocked := false; activeChain := "ethereum";
     nativeBalances := ∅; assets := []; totalUsdValue := zero;
     transactions := []; isLoading := false; error := None |}.

Definition setMeta (m : WalletMeta) (s : WalletState) : WalletState :=
  {| meta := Some m; isUnlocked := isUnlocked s; activeChain := activeChain s;
     nativeBalances := nativeBalances s; assets := assets s;
     totalUsdValue := totalUsdValue s; transactions := transactions s;
     isLoading := isLoading s; error := error s |}.

Definition setUnlocked (val : bool) (s : WalletState) : WalletState :=
  {| meta := meta s; isUnlocked := val; activeChain := activeChain s;
     nativeBalances := nativeBalances s; assets := assets s;
     totalUsdValue := totalUsdValue s; transactions := transactions s;
     isLoading := isLoading s; error := error s |}.

Definition setActiveChain (chain : string) (s : WalletState) : WalletState :=
  {| meta := meta s; isUnlocked := isUnlocked s; activeChain := chain;
     nativeBalances := nativeBalances s; assets := assets s;
     totalUsdValue := totalUsdValue s; transactions := transactions s;
     isLoading := isLoading s; error := error s |}.

Definition setNativeBalance (chain : string) (balance : jsstring) (s : WalletState)
  : WalletState :=
  {| meta := meta s; isUnlocked := isUnlocked s; activeChain := activeChain s;
     nativeBalances := <[chain := balance]> (nativeBalances s); assets := assets s;
     totalUsdValue := totalUsdValue s; transactions := transactions s;
     isLoading := isLoading s; error := error s |}.

Definition setTransactions (txs : list Transaction) (s : WalletState) : WalletState :=
  {| meta := meta s; isUnlocked := isUnlocked s; activeChain := activeChain s;
     nativeBalances := nativeBalances s; assets := assets s;
     totalUsdValue := totalUsdValue s; transactions := txs;
     isLoading := isLoading s; error := error s |}.

(** [s.transactions.unshift(tx)] *)
Definition addTransaction (tx : Transaction) (s : WalletState) : WalletState :=
  setTransactions (tx :: transactions s) s.

(** [find] returns the first transaction with the hash; its status is set. *)
Fixpoint update_first (h : jsstring) (st : TxStatus) (txs : list Transaction)
  : list Transaction :=
  match txs with
  | [] => []
  | t :: rest =>
      if decide (hash t = h) then with_status st t :: rest
      else t :: update_first h st rest
  end.

Definition updateTxStatus (h : jsstring) (st : TxStatus) (s : WalletState)
  : WalletState :=
  setTransactions (update_first h st (transactions s)) s.

Definition setLoading (val : bool) (s : WalletState) : WalletState :=
  {| meta := meta s; isUnlocked := isUnlocked s; activeChain := activeChain s;
     nativeBalances := nativeBalances s; assets := assets s;
     totalUsdValue := totalUsdValue s; transactions := transactions s;
     isLoading := val; error := error s |}.

Definition setError (msg : option string) (s : WalletState) : WalletState :=
  {| meta := meta s; isUnlocked := isUnlocked s; activeChain := activeChain s;
     nativeBalances := nativeBalances s; assets := assets s;
     totalUsdValue := totalUsdValue s; transactions := transactions s;
     isLoading := isLoading s; error := msg |}.

(** [set(() => ({ ...initialState }))]: every data field is overwritten. *)
Definition reset (zero : Num) (s : WalletState) : WalletState := initialState zero.

(** [loadFromStorage]: the meta read from storage may be [null]; a rejection
    leaves the meta as it was and records the message. *)
Definition loadFromStorage `{JSON} `{Engine} (s : WalletState) (d : Device)
  : WalletState * Device :=
  let s1 := setLoading true s in
  match loadWalletMeta d with
  | (Ok m, d') =>
      (setLoading false
         {| meta := m; isUnlocked := isUnlocked s1; activeChain := activeChain s1;
            nativeBalances := nativeBalances s1; assets := assets s1;
            totalUsdValue := totalUsdValue s1; transactions := transactions s1;
            isLoading := isLoading s1; error := error s1 |}, d')
  | (Throw e, d') => (setLoading false (setError (Some (message e)) s1), d')
  end.

(** The keys [refreshBalances] fetches: those whose chain is not a testnet
    (an absent [isTestnet] is falsy; every key of [CHAIN_KEYS] is configured). *)
Definition mainnet_keys : list string :=
  List.filter (fun k => match CHAINS !! k with
                        | Some chain => negb (default false (isTestnet chain))
                        | None => false
                        end) CHAIN_KEYS.

(** [refreshBalances]: without an address nothing happens; otherwise every
    fetch that is fulfilled writes its balance, the others write nothing. *)
Definition refreshBalances `{Network} (s : WalletState) : WalletState :=
  match meta s with
  | None => s
  | Some m =>
      match address m with
      | [] => s
      | _ :: _ =>
          let results := map (fun k => (k, getNativeBalance (address m) k)) mainnet_keys in
          let s1 := setLoading true s in
          let s2 := foldl (fun st r => match snd r with
                                       | Ok bal => setNativeBalance (fst r) bal st
                                       | Throw _ => st
                                       end) s1 results in
          setLoading false s2
      end
  end.

End Store.
End walletStore.

(** ** SettingsScreen.tsx: lock and wipe *)

Module SettingsScreen.

(** The Delete button of the wipe dialog: [await deleteWallet(); reset()]. *)
Definition handleWipeWallet {TokenAsset Num : Type} (zero : Num)
    (s : @walletStore.WalletState TokenAsset Num) (d : Device)
  : @walletStore.WalletState TokenAsset Num * Device :=
  match deleteWallet d with
  | (Ok _, d') => (walletStore.reset zero s, d')
  | (Throw _, d') => (s, d')
  end.

Definition handleLock {TokenAsset Num : Type}
    (s : @walletStore.WalletState TokenAsset Num)
  : @walletStore.WalletState TokenAsset Num :=
  walletStore.setUnlocked false s.

End SettingsScreen.

(** ** ImportWalletScreen.tsx *)

Module ImportWalletScreen.

Record state := { usePrivateKey : bool; input : jsstring; loading : bool }.

Inductive effect :=
| AlertEmptyInput
| AlertInvalidInput (text : string)
| NavigateSetPin (params : SetPinParams).

Definition setLoading (val : bool) (s : state) : state :=
  {| usePrivateKey := usePrivateKey s; input := input s; loading := val |}.

Section Screen.

(** The two functions the screen imports from core/wallet.  What they accept
    is decided by the ethers and bip39 libraries, so the screen is described
    for whatever the two functions do. *)
Context `{Engine} (importFromPrivateKey importFromMnemonic : jsstring -> async jsstring).

Definition handleImport (s : state) (d : Device) : state * list effect * Device :=
  let trimmed := trim (input s) in
  match trimmed with
  | [] => (s, [AlertEmptyInput], d)
  | _ :: _ =>
      if usePrivateKey s then
        match importFromPrivateKey trimmed d with
        | (Ok _, d') =>
            (setLoading false s,
             [NavigateSetPin {| param_mnemonic := None;
                                param_privateKey := Some trimmed; isNew := false |}],
             d')
        | (Throw e, d') =>
            (setLoading false s,
             [AlertInvalidInput
                (message_or e "Could not import wallet. Please check your input.")],
             d')
        end
      else
        match importFromMnemonic trimmed d with
        | (Ok _, d') =>
            (setLoading false s,
             [NavigateSetPin {| param_mnemonic := Some trimmed;
                                param_privateKey := None; isNew := false |}],
             d')
        | (Throw e, d') =>
            (setLoading false s,
             [AlertInvalidInput
                (message_or e "Could not import wallet. Please check your input.")],
             d')
        end
  end.

End Screen.

End ImportWalletScreen.

(** ** CreateWalletScreen.tsx *)

Module CreateWalletScreen.

Record state := {
  mnemonic : list jsstring;
  address : jsstring;
  revealed : bool;
  confirmed : bool;
  loading : bool
}.

Definition initial : state :=
  {| mnemonic := []; address := []; revealed := false; confirmed := false;
     loading := true |}.

Inductive effect :=
| AlertGenerateFailed
| ClipboardSetString (text : jsstring)
| AlertCopied
| AlertHaveYouBackedUp (onYes : SetPinParams)
| NavigateSetPin (params : SetPinParams).

(** [generate]: [m.split(' ')] is kept as the list of words. *)
Definition generate `{ethers.Crypto} `{bip39.Params}
    (rng : nat -> list Z) (s : state) (d : Device) : state * list effect * Device :=
  match generateWallet rng d with
  | (Ok (m, a), d') =>
      ({| mnemonic := bip39.split_space m; address := a; revealed := revealed s;
          confirmed := confirmed s; loading := false |}, [], d')
  | (Throw _, d') =>
      ({| mnemonic := mnemonic s; address := address s; revealed := revealed s;
          confirmed := confirmed s; loading := false |}, [AlertGenerateFailed], d')
  end.

Definition copyToClipboard (s : state) : list effect :=
  [ClipboardSetString (bip39.join_space (mnemonic s)); AlertCopied].

(** [proceed]: [mnemonic.join(' ')] is what SetPin receives. *)
Definition proceed (s : state) : list effect :=
  let params := {| param_mnemonic := Some (bip39.join_space (mnemonic s));
                   param_privateKey := None; isNew := true |} in
  if negb (confirmed s) then [AlertHaveYouBackedUp params]
  else [NavigateSetPin params].

End CreateWalletScreen.

(** What [JSON.parse] and [JSON.stringify] guarantee on a [WalletMeta]: the
    text of an object is never empty and parses back to the object. *)
Class JSONLaws `{JSON} := {
  JSON_parse_stringify : forall meta, JSON_parse (JSON_stringify meta) = Ok meta;
  JSON_stringify_nonempty : forall meta, JSON_stringify meta <> []
}.

(** ** Auxiliary definitions for the proofs *)

(** The integers [0 .. n-1], for checks by enumeration. *)
Definition Z_range (n : nat) : list Z := map Z.of_nat (seq 0 n).

Definition in_range (lo hi v : Z) : bool := (lo <=? v) && (v <? hi).

(** The four sextets of three bytes, and the bytes recovered from them. *)
Definition sextet1 (a : Z) : Z := Z.shiftr a 2.
Definition sextet2 (a b : Z) : Z := Z.lor (Z.shiftl (Z.land a 3) 4) (Z.shiftr b 4).
Definition sextet3 (b c : Z) : Z := Z.lor (Z.shiftl (Z.land b 15) 2) (Z.shiftr c 6).
Definition sextet4 (c : Z) : Z := Z.land c 63.

(** The unlock screen after five submissions of 000000 on a device that
    holds no wallet. *)
Definition five_failed_attempts : UnlockScreen.app :=
  Nat.iter 5 (UnlockScreen.tryUnlock (of_string "000000"))
           (UnlockScreen.initial empty_device).

(** The same screen once a phrase has been saved on the device under PIN
    123456. *)
Definition five_failed_attempts_restored : UnlockScreen.app :=
  UnlockScreen.onDevice
    (saveMnemonic (of_string "abandon abandon abandon abandon abandon abandon abandon abandon abandon abandon abandon about")
                  (of_string "123456"))
    five_failed_attempts.

Definition is_hex_digit (c : Z) : Prop := exists v, Hex.digit_value c = Some v.

(** A stand-in for the ethers primitives, to instantiate the statements:
    every phrase derives the private scalar 1, and every scalar has the
    address of the private key 1. *)
Definition fixture_crypto : ethers.Crypto :=
  {| ethers.derive_scalar := fun _ _ => Ok 1;
     ethers.computeAddress := fun _ => of_string "0x7E5F4552091A69125d5DfCb7b8C2659029395Bdf" |}.

(** A device holding the phrase "abandon ... about" under PIN 123456. *)
Definition fixture_device : Device :=
  snd (saveMnemonic
         (of_string "abandon abandon abandon abandon abandon abandon abandon abandon abandon abandon abandon about")
         (of_string "123456") empty_device).

(** A stand-in for the bip39 parameters: 2048 distinct one-unit words and a
    constant 32-byte hash. *)
Definition fixture_bip39 : bip39.Params :=
  {| bip39.wordlist := (fun i : nat => [Z.of_nat i + 256]) <$> seq 0 2048;
     bip39.sha256 := fun _ => replicate 32 0 |}.

(** A random source that returns zero bytes. *)
Definition fixture_rng (size : nat) : list Z := replicate size 0.

(** The phrase of sixteen zero bytes over [fixture_bip39]: twelve times the
    first word. *)
Definition fixture_phrase : jsstring :=
  [256; 32; 256; 32; 256; 32; 256; 32; 256; 32; 256; 32;
   256; 32; 256; 32; 256; 32; 256; 32; 256; 32; 256].

Definition white_space (c : Z) : Prop := is_white_space c = true.

(** A stand-in for JSON on [WalletMeta]: a flag, the timestamp, then the
    address. *)
Definition fixture_json : JSON :=
  {| JSON_stringify := fun meta =>
       (if backupVerified meta then 116 else 102) :: createdAt meta :: address meta;
     JSON_parse := fun raw =>
       match raw with
       | flag :: stamp :: addr =>
           Ok {| address := addr; createdAt := stamp; backupVerified := flag =? 116 |}
       | _ => Throw (Error "Unexpected end of JSON input")
       end |}.

Definition fixture_engine : Engine :=
  {| RangeError_message := "Invalid count value";
     TypeError_message := "Cannot read properties of undefined" |}.

Definition fixture_meta : WalletMeta :=
  {| address := of_string "0x7E5F4552091A69125d5DfCb7b8C2659029395Bdf";
     createdAt := 1700000000000; backupVerified := false |}.

(** A stand-in for the network: the Polygon endpoint fails, the others
    report 1.5. *)
Definition fixture_network : Network :=
  {| getBalance := fun provider _ =>
       match provider with
       | ethers.JsonRpcProvider url =>
           if decide (url = "https://polygon-rpc.com"%string)
           then Throw (Error "network timeout")
           else Ok (of_string "1.5")
       | ethers.JsonRpcProvider_default => Throw (Error "connection refused")
       end |}.

Definition fixture_tx : walletStore.Transaction :=
  {| walletStore.hash := of_string "0xabc";
     walletStore.from := of_string "0x7E5F4552091A69125d5DfCb7b8C2659029395Bdf";
     walletStore.to := of_string "0x2B5AD5c4795c026514f8317c7a215E218DcCD6cF";
     walletStore.value := of_string "0.1 ETH";
     walletStore.timestamp := 1700000000000;
     walletStore.status := walletStore.pending;
     walletStore.type := walletStore.send;
     walletStore.chainKey := "ethereum" |}.

(** A store whose wallet has two transactions with the same hash and an old
    Polygon balance. *)
Definition fixture_store : @walletStore.WalletState unit Z :=
  {| walletStore.meta := Some fixture_meta;
     walletStore.isUnlocked := true;
     walletStore.activeChain := "ethereum";
     walletStore.nativeBalances := {[ "polygon"%string := of_string "7.0" ]};
     walletStore.assets := [];
     walletStore.totalUsdValue := 0;
     walletStore.transactions := [fixture_tx; fixture_tx];
     walletStore.isLoading := false;
     walletStore.error := None |}.

(** * Properties *)

(** ** The definitions on small inputs *)

Example encrypt_abc :
  encryptWithPin (of_string "abc") (of_string "123456") = Ok (of_string "UFBQ").
Proof. reflexivity. Qed.

Example decrypt_abc :
  decryptWithPin (of_string "UFBQ") (of_string "123456") = Ok (of_string "abc").
Proof. reflexivity. Qed.

(** An empty PIN: [repeat(Infinity)] throws, unless the text is empty too. *)
Example encrypt_empty_pin :
  encryptWithPin (of_string "abc") [] = Throw RangeError /\
  encryptWithPin [] [] = Ok [].
Proof. split; reflexivity. Qed.

Example base64_padding :
  Buffer.toString_base64 [77] = of_string "TQ==" /\
  Buffer.toString_base64 [77; 97] = of_string "TWE=" /\
  Buffer.toString_base64 [77; 97; 110] = of_string "TWFu" /\
  Buffer.from_base64 (of_string "TWE=") = [77; 97] /\
  Buffer.from_base64 (of_string "TW Fu!") = [77; 97; 110].
Proof. repeat split; reflexivity. Qed.

Example binary_keeps_low_byte : Buffer.from_binary [353; 97] = [97; 97].
Proof. reflexivity. Qed.

Example trim_phrase : trim (of_string "  abandon about ") = of_string "abandon about".
Proof. reflexivity. Qed.

Example hexlify32_one :
  ethers.hexlify32 1
  = of_string "0x0000000000000000000000000000000000000000000000000000000000000001".
Proof. reflexivity. Qed.

Example private_scalar_examples :
  ethers.private_scalar
    (of_string "0x0000000000000000000000000000000000000000000000000000000000000001")
  = Some 1 /\
  ethers.private_scalar (of_string "0xINVALIDHEX") = None /\
  ethers.private_scalar
    (of_string "0x0000000000000000000000000000000000000000000000000000000000000000")
  = None /\
  ethers.private_scalar
    (of_string "0000000000000000000000000000000000000000000000000000000000000001")
  = None.
Proof. repeat split; reflexivity. Qed.

Example configured_chains :
  dom CHAINS = {["ethereum"%string; "bsc"%string; "polygon"%string]} /\
  rpcUrl <$> CHAINS !! "polygon"%string = Some "https://polygon-rpc.com"%string /\
  CHAINS !! "solana"%string = None.
Proof. split; [|split]; [set_solver | reflexivity | reflexivity]. Qed.

Example split_join :
  bip39.split_space (of_string "abandon  about") = [of_string "abandon"; []; of_string "about"] /\
  bip39.join_space [of_string "abandon"; of_string "about"] = of_string "abandon about".
Proof. split; reflexivity. Qed.

Example fixture_generates_phrase :
  @bip39.generateMnemonic fixture_bip39 128 fixture_rng = Ok fixture_phrase /\
  @bip39.validateMnemonic fixture_bip39 fixture_phrase = true /\
  @bip39.validateMnemonic fixture_bip39 (removelast fixture_phrase ++ [257]) = false.
Proof. vm_compute. repeat split; reflexivity. Qed.

(** Six digits typed on the pad of a device without wallet: the sixth one
    submits, the submission fails and the PIN is cleared. *)
Example pad_six_digits :
  UnlockScreen.screen
    (foldl (fun a key => UnlockScreen.handleKey key a)
           (UnlockScreen.initial empty_device)
           [[49]; [50]; [51]; [9003]; [51]; [52]; [53]; [54]])
  = {| UnlockScreen.pin := []; UnlockScreen.loading := false; UnlockScreen.attempts := 1 |}.
Proof. vm_compute. reflexivity. Qed.

(** On a device holding a wallet under 123456, the same digits unlock. *)
Example pad_unlocks :
  UnlockScreen.isUnlocked
    (foldl (fun a key => UnlockScreen.handleKey key a)
           (UnlockScreen.initial fixture_device)
           [[49]; [50]; [51]; [52]; [53]; [54]])
  = true.
Proof. vm_compute. reflexivity. Qed.

(** ** Checking a predicate on a finite range of integers *)


Lemma Z_range_forallb (n : nat) (P : Z -> bool) :
  forallb P (Z_range n) = true ->
  forall z, 0 <= z < Z.of_nat n -> P z = true.
Proof.
  intros Hall z Hz. rewrite forallb_forall in Hall. apply Hall.
  unfold Z_range. apply in_map_iff. exists (Z.to_nat z).
  split; [lia | apply in_seq; lia].
Qed.

Lemma Z_range_forallb2 (n m : nat) (P : Z -> Z -> bool) :
  forallb (fun a => forallb (P a) (Z_range m)) (Z_range n) = true ->
  forall a b, 0 <= a < Z.of_nat n -> 0 <= b < Z.of_nat m -> P a b = true.
Proof.
  intros Hall a b Ha Hb.
  pose proof (Z_range_forallb n _ Hall a Ha) as Hrow.
  exact (Z_range_forallb m _ Hrow b Hb).
Qed.

Lemma Z_range_forallb3 (n m k : nat) (P : Z -> Z -> Z -> bool) :
  forallb (fun a => forallb (fun b => forallb (P a b) (Z_range k)) (Z_range m))
          (Z_range n) = true ->
  forall a b c, 0 <= a < Z.of_nat n -> 0 <= b < Z.of_nat m ->
                0 <= c < Z.of_nat k -> P a b c = true.
Proof.
  intros Hall a b c Ha Hb Hc.
  pose proof (Z_range_forallb2 n m _ Hall a b Ha Hb) as Hrow.
  exact (Z_range_forallb k _ Hrow c Hc).
Qed.

(** ** Code units and bytes *)

Lemma fromCharCode_code_unit c : code_unit c -> fromCharCode c = c.
Proof.
  unfold code_unit, fromCharCode. intros Hc.
  change 65535 with (Z.ones 16). rewrite Z.land_ones by lia.
  apply Z.mod_small. lia.
Qed.

Lemma land_255_latin1 c : latin1 c -> Z.land c 255 = c.
Proof.
  unfold latin1. intros Hc.
  change 255 with (Z.ones 8). rewrite Z.land_ones by lia.
  apply Z.mod_small. lia.
Qed.

Lemma land_255_is_latin1 c : latin1 (Z.land c 255).
Proof.
  unfold latin1. change 255 with (Z.ones 8). rewrite Z.land_ones by lia.
  pose proof (Z.mod_pos_bound c (2 ^ 8)). lia.
Qed.

Lemma latin1_code_unit c : latin1 c -> code_unit c.
Proof. unfold latin1, code_unit. lia. Qed.

Lemma lxor_latin1 a b : latin1 a -> latin1 b -> latin1 (Z.lxor a b).
Proof.
  unfold latin1. intros Ha Hb.
  pose proof (Z_range_forallb2 256 256
                (fun a b => (0 <=? Z.lxor a b) && (Z.lxor a b <? 256))
                ltac:(vm_compute; reflexivity) a b Ha Hb) as Hchk.
  cbv beta in Hchk. lia.
Qed.

Lemma lxor_cancel a k : Z.lxor (Z.lxor a k) k = a.
Proof. rewrite Z.lxor_assoc, Z.lxor_nilpotent. apply Z.lxor_0_r. Qed.

(** ** Base64: decoding what was encoded gives the bytes back *)

Section Base64.
Import Buffer.

Lemma b64_value_char v :
  0 <= v < 64 -> b64_value (b64_char v) = Some v /\ (b64_char v =? 61) = false.
Proof.
  intros Hv.
  pose proof (Z_range_forallb 64
                (fun v => match b64_value (b64_char v) with
                          | Some v' => (v' =? v) && negb (b64_char v =? 61)
                          | None => false
                          end)
                ltac:(vm_compute; reflexivity) v Hv) as Hchk.
  cbv beta in Hchk. destruct (b64_value (b64_char v)) as [v'|]; [|discriminate].
  apply andb_true_iff in Hchk as [Hv' Hne].
  apply Z.eqb_eq in Hv'. subst v'. split; [reflexivity|].
  now apply negb_true_iff.
Qed.

Lemma b64_sextets_char v s :
  0 <= v < 64 -> b64_sextets (b64_char v :: s) = v :: b64_sextets s.
Proof.
  intros Hv. destruct (b64_value_char v Hv) as [Hval Hne].
  cbn [b64_sextets]. now rewrite Hne, Hval.
Qed.

Lemma b64_sextets_pad s : b64_sextets (61 :: s) = [].
Proof. reflexivity. Qed.


Lemma in_range_spec lo hi v : in_range lo hi v = true <-> lo <= v < hi.
Proof. unfold in_range. rewrite andb_true_iff. lia. Qed.

Lemma sextets_12 a b :
  latin1 a -> latin1 b ->
  0 <= sextet1 a < 64 /\ 0 <= sextet2 a b < 64 /\
  Z.lor (Z.shiftl (sextet1 a) 2) (Z.shiftr (sextet2 a b) 4) = a.
Proof.
  unfold latin1. intros Ha Hb.
  pose proof (Z_range_forallb2 256 256
                (fun a b => in_range 0 64 (sextet1 a) && in_range 0 64 (sextet2 a b)
                   && (Z.lor (Z.shiftl (sextet1 a) 2) (Z.shiftr (sextet2 a b) 4) =? a))
                ltac:(vm_compute; reflexivity) a b Ha Hb) as Hchk.
  cbv beta in Hchk.
  apply andb_true_iff in Hchk as [Hchk H3]. apply andb_true_iff in Hchk as [H1 H2].
  apply in_range_spec in H1, H2. apply Z.eqb_eq in H3. auto.
Qed.

Lemma sextets_23 x b c :
  0 <= x < 4 -> latin1 b -> latin1 c ->
  0 <= sextet3 b c < 64 /\ 0 <= sextet4 c < 64 /\
  Z.lor (Z.shiftl (Z.land (Z.lor (Z.shiftl x 4) (Z.shiftr b 4)) 15) 4)
        (Z.shiftr (sextet3 b c) 2) = b /\
  Z.lor (Z.shiftl (Z.land (sextet3 b c) 3) 6) (sextet4 c) = c.
Proof.
  unfold latin1. intros Hx Hb Hc.
  pose proof (Z_range_forallb3 4 256 256
                (fun x b c =>
                   in_range 0 64 (sextet3 b c) && in_range 0 64 (sextet4 c)
                   && (Z.lor (Z.shiftl (Z.land (Z.lor (Z.shiftl x 4) (Z.shiftr b 4)) 15) 4)
                             (Z.shiftr (sextet3 b c) 2) =? b)
                   && (Z.lor (Z.shiftl (Z.land (sextet3 b c) 3) 6) (sextet4 c) =? c))
                ltac:(vm_compute; reflexivity) x b c Hx Hb Hc) as Hchk.
  cbv beta in Hchk.
  apply andb_true_iff in Hchk as [Hchk H4]. apply andb_true_iff in Hchk as [Hchk H3].
  apply andb_true_iff in Hchk as [H1 H2].
  apply in_range_spec in H1, H2. apply Z.eqb_eq in H3, H4. auto.
Qed.

Lemma land_3_range a : latin1 a -> 0 <= Z.land a 3 < 4.
Proof.
  intros _. change 3 with (Z.ones 2). rewrite Z.land_ones by lia.
  pose proof (Z.mod_pos_bound a (2 ^ 2)). lia.
Qed.

Lemma list_ind3 {A} (P : list A -> Prop) :
  P [] -> (forall a, P [a]) -> (forall a b, P [a; b]) ->
  (forall a b c l, P l -> P (a :: b :: c :: l)) ->
  forall l, P l.
Proof.
  intros H0 H1 H2 H3. fix IH 1.
  intros [|a [|b [|c l]]]; [exact H0 | apply H1 | apply H2 | apply H3, IH].
Qed.

Lemma from_base64_toString_base64 bytes :
  Forall latin1 bytes -> from_base64 (toString_base64 bytes) = bytes.
Proof.
  unfold from_base64.
  induction bytes as [|a|a b|a b c rest IH] using list_ind3; intros Hall.
  - reflexivity.
  - apply Forall_cons in Hall as [Ha _].
    assert (H0 : latin1 0) by (unfold latin1; lia).
    destruct (sextets_12 a 0 Ha H0) as (H1 & H2 & Hbyte).
    unfold sextet1, sextet2 in *.
    change (Z.shiftr 0 4) with 0 in *. rewrite Z.lor_0_r in *.
    cbn [toString_base64].
    rewrite !b64_sextets_char, b64_sextets_pad by assumption.
    cbn [b64_bytes]. now rewrite Hbyte.
  - apply Forall_cons in Hall as [Ha Hall]. apply Forall_cons in Hall as [Hb _].
    assert (H0 : latin1 0) by (unfold latin1; lia).
    destruct (sextets_12 a b Ha Hb) as (H1 & H2 & Hbyte1).
    destruct (sextets_23 (Z.land a 3) b 0 (land_3_range a Ha) Hb H0)
      as (H3 & _ & Hbyte2 & _).
    unfold sextet1, sextet2, sextet3 in *.
    change (Z.shiftr 0 6) with 0 in *. rewrite Z.lor_0_r in *.
    cbn [toString_base64].
    rewrite !b64_sextets_char, b64_sextets_pad by assumption.
    cbn [b64_bytes]. now rewrite Hbyte1, Hbyte2.
  - apply Forall_cons in Hall as [Ha Hall]. apply Forall_cons in Hall as [Hb Hall].
    apply Forall_cons in Hall as [Hc Hall].
    destruct (sextets_12 a b Ha Hb) as (H1 & H2 & Hbyte1).
    destruct (sextets_23 (Z.land a 3) b c (land_3_range a Ha) Hb Hc)
      as (H3 & H4 & Hbyte2 & Hbyte3).
    unfold sextet1, sextet2, sextet3, sextet4 in *.
    cbn [toString_base64].
    rewrite !b64_sextets_char by assumption.
    cbn [b64_bytes]. rewrite Hbyte1, Hbyte2, Hbyte3. now rewrite IH.
Qed.

End Base64.

(** ** The PIN cipher *)

Lemma foldl_snoc_map {A B} (g : B -> A) (l : list B) (init : list A) :
  foldl (fun acc i => acc ++ [g i]) init l = init ++ map g l.
Proof.
  revert init. induction l as [|i l IH]; intros init; simpl.
  - now rewrite app_nil_r.
  - rewrite IH, <- app_assoc. reflexivity.
Qed.

Lemma map_seq_nth2 (h : Z -> Z -> Z) (text key : list Z) :
  length key = length text ->
  map (fun i => h (nth i text 0) (nth i key 0)) (seq 0 (length text))
  = zip_with h text key.
Proof.
  revert key. induction text as [|a text IH]; intros [|k key] Hlen;
    simpl in Hlen; try discriminate; [reflexivity|].
  cbn [length seq map zip_with nth]. f_equal.
  rewrite <- seq_shift, map_map. cbn [nth]. apply IH. lia.
Qed.

(** The loop computes the code-unit-wise XOR of the text with the key. *)
Lemma xor_loop_zip text key :
  length key = length text ->
  xor_loop text key = zip_with (fun a k => fromCharCode (Z.lxor a k)) text key.
Proof.
  intros Hlen. unfold xor_loop, charCodeAt. rewrite foldl_snoc_map. simpl.
  now apply (map_seq_nth2 (fun a k => fromCharCode (Z.lxor a k))).
Qed.

Lemma length_concat_replicate {A} (n : nat) (l : list A) :
  length (concat (replicate n l)) = (n * length l)%nat.
Proof.
  induction n as [|n IH]; simpl; [reflexivity|].
  rewrite length_app, IH. reflexivity.
Qed.

Lemma Forall_concat_replicate {A} (P : A -> Prop) (n : nat) (l : list A) :
  Forall P l -> Forall P (concat (replicate n l)).
Proof.
  intros Hl. induction n as [|n IH]; simpl; [constructor|].
  apply Forall_app. split; assumption.
Qed.

(** The key stream of a nonempty PIN exists, is as long as the text and is
    made of code units of the PIN. *)
Lemma pin_key_nonempty text pin :
  pin <> [] ->
  exists key, pin_key text pin = Ok key /\ length key = length text /\
              forall P : Z -> Prop, Forall P pin -> Forall P key.
Proof.
  intros Hpin. destruct pin as [|c pin]; [congruence|].
  set (p := c :: pin).
  set (b := Z.of_nat (length p)).
  set (q := (Z.of_nat (length text) + b - 1) / b).
  assert (Hceil : Math_ceil_div (length text) (length p) = Finite q) by reflexivity.
  assert (Hb : 0 < b) by (subst b p; simpl; lia).
  assert (Hq : 0 <= q /\ Z.of_nat (length text) <= q * b).
  { subst q.
    pose proof (Z.div_mod (Z.of_nat (length text) + b - 1) b ltac:(lia)) as Hdm.
    pose proof (Z.mod_pos_bound (Z.of_nat (length text) + b - 1) b Hb) as Hmod.
    split; [apply Z.div_pos; lia | nia]. }
  unfold pin_key, JS.repeat, slice0. rewrite Hceil.
  destruct (q <? 0) eqn:Eq; [lia|]. simpl.
  eexists. split; [reflexivity|]. split.
  - rewrite length_take, length_concat_replicate. subst b. nia.
  - intros P HP. apply Forall_take. now apply Forall_concat_replicate.
Qed.

Lemma pin_key_length_only text1 text2 pin :
  length text1 = length text2 -> pin_key text1 pin = pin_key text2 pin.
Proof. unfold pin_key. now intros ->. Qed.

Lemma xor_zip_latin1 (m key : list Z) :
  Forall latin1 m -> Forall latin1 key -> length key = length m ->
  let bytes := Buffer.from_binary (zip_with (fun a k => fromCharCode (Z.lxor a k)) m key) in
  Forall latin1 bytes /\ length bytes = length m /\
  zip_with (fun a k => fromCharCode (Z.lxor a k)) bytes key = m.
Proof.
  intros Hm. revert key. induction Hm as [|a m Ha Hm IH]; intros [|k key] Hkey Hlen;
    simpl in Hlen; try discriminate; cbn zeta.
  - repeat split; constructor.
  - apply Forall_cons in Hkey as [Hk Hkey].
    destruct (IH key Hkey ltac:(lia)) as (IH1 & IH2 & IH3).
    pose proof (lxor_latin1 a k Ha Hk) as Hx.
    unfold Buffer.from_binary in *. cbn [zip_with map length].
    rewrite (fromCharCode_code_unit _ (latin1_code_unit _ Hx)).
    rewrite (land_255_latin1 _ Hx).
    repeat split.
    + constructor; assumption.
    + now rewrite IH2.
    + rewrite lxor_cancel, (fromCharCode_code_unit _ (latin1_code_unit _ Ha)).
      now rewrite IH3.
Qed.

(** Whatever is stored, a nonempty PIN decrypts it to some string. *)
Lemma decryptWithPin_total encoded pin :
  pin <> [] -> exists s, decryptWithPin encoded pin = Ok s.
Proof.
  intros Hpin. unfold decryptWithPin.
  destruct (pin_key_nonempty (Buffer.toString_binary (Buffer.from_base64 encoded)) pin Hpin)
    as (key & -> & _).
  simpl. eauto.
Qed.

Lemma encryptWithPin_total text pin :
  pin <> [] -> exists blob, encryptWithPin text pin = Ok blob.
Proof.
  intros Hpin. unfold encryptWithPin.
  destruct (pin_key_nonempty text pin Hpin) as (key & -> & _).
  simpl. eauto.
Qed.

(** The blob holds exactly one byte per code unit of the plaintext. *)
Lemma encryptWithPin_blob_length text pin blob :
  encryptWithPin text pin = Ok blob ->
  length (Buffer.from_base64 blob) = length text.
Proof.
  unfold encryptWithPin, pin_key. intros Henc.
  destruct (JS.repeat pin _) as [rep|e]; simpl in Henc; [|discriminate].
  injection Henc as <-.
  rewrite from_base64_toString_base64.
  - unfold Buffer.from_binary, xor_loop. rewrite length_map, foldl_snoc_map.
    simpl. now rewrite length_map, length_seq.
  - unfold Buffer.from_binary. apply Forall_map, Forall_forall.
    intros c _. apply land_255_is_latin1.
Qed.

Lemma encrypt_decrypt_latin1 m pin :
  Forall latin1 m -> Forall latin1 pin -> pin <> [] ->
  exists blob, encryptWithPin m pin = Ok blob /\ decryptWithPin blob pin = Ok m.
Proof.
  intros Hm Hpin Hne.
  destruct (pin_key_nonempty m pin Hne) as (key & Hkey & Hlen & Hall).
  pose proof (Hall latin1 Hpin) as Hkl.
  destruct (xor_zip_latin1 m key Hm Hkl Hlen) as (Hb1 & Hb2 & Hb3).
  unfold encryptWithPin. rewrite Hkey. simpl.
  eexists. split; [reflexivity|].
  unfold decryptWithPin, Buffer.toString_binary.
  rewrite (xor_loop_zip m key Hlen).
  rewrite from_base64_toString_base64 by assumption.
  rewrite (pin_key_length_only _ m pin Hb2), Hkey. simpl.
  rewrite xor_loop_zip by lia. now rewrite Hb3.
Qed.

Lemma pin_key_head text c pin :
  text <> [] ->
  exists key, pin_key text (c :: pin) = Ok (c :: key) /\ length (c :: key) = length text.
Proof.
  intros Htext.
  destruct (pin_key_nonempty text (c :: pin) ltac:(discriminate)) as (key & Hkey & Hlen & _).
  destruct text as [|t text]; [congruence|].
  set (p := c :: pin) in *.
  set (b := Z.of_nat (length p)).
  set (q := (Z.of_nat (length (t :: text)) + b - 1) / b).
  assert (Hceil : Math_ceil_div (length (t :: text)) (length p) = Finite q) by reflexivity.
  assert (Hb : 0 < b) by (subst b p; simpl; lia).
  assert (Hq : 1 <= q).
  { subst q. apply Z.div_le_lower_bound; [lia|]. simpl length. lia. }
  unfold pin_key, JS.repeat, slice0 in Hkey. rewrite Hceil in Hkey.
  destruct (q <? 0) eqn:Eq; [lia|]. simpl in Hkey. injection Hkey as Hkey.
  destruct (Z.to_nat q) as [|q'] eqn:Eqn; [lia|].
  subst p. simpl in Hkey. subst key.
  eexists. split; [|exact Hlen].
  unfold pin_key, JS.repeat, slice0. rewrite Hceil, Eq. simpl. rewrite Eqn. reflexivity.
Qed.

Lemma lxor_lxor_same m c1 c2 : Z.lxor (Z.lxor m c1) c2 = m -> c1 = c2.
Proof.
  intros Heq. apply Z.lxor_eq.
  apply (f_equal (Z.lxor m)) in Heq.
  rewrite Z.lxor_nilpotent in Heq.
  rewrite <- Heq, <- Z.lxor_assoc, <- Z.lxor_assoc, Z.lxor_nilpotent, Z.lxor_0_l.
  reflexivity.
Qed.

(** Decrypting under another PIN succeeds; the first code unit of the result
    is the plaintext's XORed with the first code units of both PINs. *)
Lemma decrypt_other_pin_first_unit m0 m c1 p1 c2 p2 :
  Forall latin1 (m0 :: m) -> Forall latin1 (c1 :: p1) -> Forall latin1 (c2 :: p2) ->
  exists blob s,
    encryptWithPin (m0 :: m) (c1 :: p1) = Ok blob /\
    decryptWithPin blob (c2 :: p2) = Ok (Z.lxor (Z.lxor m0 c1) c2 :: s).
Proof.
  intros Hm Hp1 Hp2.
  destruct (pin_key_head (m0 :: m) c1 p1 ltac:(discriminate)) as (k1 & Hk1 & Hlen1).
  destruct (pin_key_nonempty (m0 :: m) (c1 :: p1) ltac:(discriminate))
    as (key1 & Hkey1 & _ & Hall1).
  rewrite Hk1 in Hkey1. injection Hkey1 as <-.
  pose proof (Hall1 latin1 Hp1) as Hk1l.
  destruct (xor_zip_latin1 (m0 :: m) (c1 :: k1) Hm Hk1l Hlen1) as (Hb1 & Hb2 & _).
  cbv zeta in Hb1, Hb2.
  set (bytes := Buffer.from_binary
                  (zip_with (fun a k => fromCharCode (Z.lxor a k)) (m0 :: m) (c1 :: k1))) in *.
  assert (Hbytes : exists rest, bytes = Z.lxor m0 c1 :: rest).
  { subst bytes. unfold Buffer.from_binary. cbn [zip_with map].
    apply Forall_cons in Hm as [Hm0 _]. apply Forall_cons in Hp1 as [Hc1 _].
    pose proof (lxor_latin1 m0 c1 Hm0 Hc1) as Hx.
    rewrite (fromCharCode_code_unit _ (latin1_code_unit _ Hx)), (land_255_latin1 _ Hx).
    eauto. }
  destruct Hbytes as (rest & Hbytes).
  destruct (pin_key_head bytes c2 p2) as (k2 & Hk2 & Hlen2).
  { rewrite Hbytes. discriminate. }
  exists (Buffer.toString_base64 bytes).
  exists (zip_with (fun a k => fromCharCode (Z.lxor a k)) rest k2).
  split.
  - unfold encryptWithPin. rewrite Hk1. simpl. now rewrite (xor_loop_zip _ _ Hlen1).
  - unfold decryptWithPin, Buffer.toString_binary.
    rewrite from_base64_toString_base64 by assumption.
    rewrite Hk2. simpl. rewrite (xor_loop_zip _ _ Hlen2).
    rewrite Hbytes. cbn [zip_with]. f_equal. f_equal.
    apply fromCharCode_code_unit, latin1_code_unit.
    apply Forall_cons in Hm as [Hm0 _]. apply Forall_cons in Hp1 as [Hc1 _].
    apply Forall_cons in Hp2 as [Hc2 _].
    apply lxor_latin1; [apply lxor_latin1|]; assumption.
Qed.

Lemma latin1_check (l : list Z) : forallb (in_range 0 256) l = true -> Forall latin1 l.
Proof.
  intros Hall. apply Forall_forall. intros c Hc.
  rewrite forallb_forall in Hall. unfold latin1.
  apply in_range_spec, Hall. now apply list_elem_of_In.
Qed.

(** *** Storing and loading the encrypted phrase *)

Lemma saveMnemonic_stores mnemonic pin blob d :
  encryptWithPin mnemonic pin = Ok blob ->
  saveMnemonic mnemonic pin d =
    (Ok tt, {| keychain := <[MNEMONIC_SERVICE :=
                               {| username := MNEMONIC_SERVICE; password := blob |}]>
                             (keychain d);
               encrypted_storage := encrypted_storage d |}).
Proof.
  intros Henc. unfold saveMnemonic, await, lift, resolve. rewrite Henc. reflexivity.
Qed.

Lemma loadMnemonic_stored pin d c :
  keychain d !! MNEMONIC_SERVICE = Some c ->
  loadMnemonic pin d = (decryptWithPin (password c) pin, d).
Proof.
  intros Hc. unfold loadMnemonic, await, Keychain.getGenericPassword, lift.
  rewrite Hc. reflexivity.
Qed.

Lemma loadMnemonic_absent pin d :
  keychain d !! MNEMONIC_SERVICE = None ->
  loadMnemonic pin d = (Throw NoWalletStored, d).
Proof.
  intros Hc. unfold loadMnemonic, await, Keychain.getGenericPassword, reject.
  rewrite Hc. reflexivity.
Qed.

(** C1 (code at the failing input). A phrase saved under PIN 123456 and loaded
    under PIN 000000: [loadMnemonic] does not reject, it resolves to a string
    that is not the phrase (it starts with "``bjaio" instead of "abandon"). *)
Theorem loadMnemonic_wrong_pin_returns_garbage :
  exists d s,
    saveMnemonic
      (of_string "abandon abandon abandon abandon abandon abandon abandon abandon abandon abandon abandon about")
      (of_string "123456") empty_device = (Ok tt, d) /\
    loadMnemonic (of_string "000000") d = (Ok s, d) /\
    take 7 s = of_string "``bjaio" /\
    s <> of_string "abandon abandon abandon abandon abandon abandon abandon abandon abandon abandon abandon about".
Proof.
  eexists. eexists. split; [|split; [|split]].
  - apply saveMnemonic_stores. vm_compute. reflexivity.
  - rewrite (loadMnemonic_stored _ _ _ (lookup_insert_eq _ _ _)).
    cbn [password].
    match goal with
    | |- (?r, _) = _ => let v := eval vm_compute in r in change r with v
    end.
    reflexivity.
  - reflexivity.
  - discriminate.
Qed.

(** C3. With an entry stored, [loadMnemonic] resolves to a string for every
    nonempty PIN; it rejects only when no entry is stored; and it resolves to
    something else than the saved phrase under a PIN whose first digit
    differs from the one used at save time: no check ties the PIN supplied to
    the PIN the phrase was saved with. *)
Theorem loadMnemonic_accepts_any_pin (d : Device) (pin : jsstring) :
  pin <> [] ->
  (forall c, keychain d !! MNEMONIC_SERVICE = Some c ->
             exists s, loadMnemonic pin d = (Ok s, d)) /\
  (forall e d', loadMnemonic pin d = (Throw e, d') ->
                keychain d !! MNEMONIC_SERVICE = None /\ e = NoWalletStored /\ d' = d) /\
  (forall m p1,
      Forall latin1 m -> Forall latin1 p1 -> Forall latin1 pin ->
      m <> [] -> p1 <> [] -> hd 0 p1 <> hd 0 pin ->
      exists d1 s, saveMnemonic m p1 d = (Ok tt, d1) /\
                   loadMnemonic pin d1 = (Ok s, d1) /\ s <> m).
Proof.
  intros Hpin. split; [|split].
  - intros c Hc. rewrite (loadMnemonic_stored pin d c Hc).
    destruct (decryptWithPin_total (password c) pin Hpin) as (s & ->). eauto.
  - intros e d' Hload.
    destruct (keychain d !! MNEMONIC_SERVICE) as [c|] eqn:Hc.
    + rewrite (loadMnemonic_stored pin d c Hc) in Hload.
      destruct (decryptWithPin_total (password c) pin Hpin) as (s & Hs).
      rewrite Hs in Hload. discriminate.
    + rewrite (loadMnemonic_absent pin d Hc) in Hload.
      injection Hload as <- <-. auto.
  - intros m p1 Hm Hp1 Hp2 Hmne Hp1ne Hhd.
    destruct m as [|m0 m]; [congruence|].
    destruct p1 as [|c1 p1]; [congruence|].
    destruct pin as [|c2 p2]; [congruence|].
    destruct (decrypt_other_pin_first_unit m0 m c1 p1 c2 p2 Hm Hp1 Hp2)
      as (blob & s & Henc & Hdec).
    eexists. exists (Z.lxor (Z.lxor m0 c1) c2 :: s). split; [|split].
    + apply (saveMnemonic_stores _ _ _ _ Henc).
    + rewrite (loadMnemonic_stored _ _ _ (lookup_insert_eq _ _ _)).
      cbn [password]. now rewrite Hdec.
    + intros Heq. injection Heq as Heq _.
      apply lxor_lxor_same in Heq. simpl in Hhd. congruence.
Qed.

Lemma loadMnemonic_accepts_any_pin_witness :
  exists s,
    loadMnemonic (of_string "000000")
      (snd (saveMnemonic (of_string "abc") (of_string "123456") empty_device))
    = (Ok s, snd (saveMnemonic (of_string "abc") (of_string "123456") empty_device)).
Proof.
  refine (proj1 (loadMnemonic_accepts_any_pin _ (of_string "000000") _)
                {| username := MNEMONIC_SERVICE; password := of_string "UFBQ" |} _).
  - discriminate.
  - vm_compute. reflexivity.
Defined.

(** C4 as stated fails: the PIN may hold a code unit above 255.  The phrase
    "a" under the one-unit PIN U+0100 is stored as "YQ==" and read back as
    U+0161. *)
Lemma round_trip_fails_for_wide_pin :
  Forall latin1 (of_string "a") /\ [256] <> [] /\ Forall code_unit [256] /\
  encryptWithPin (of_string "a") [256] = Ok (of_string "YQ==") /\
  decryptWithPin (of_string "YQ==") [256] = Ok [353] /\
  [353] <> of_string "a".
Proof.
  split; [apply latin1_check; reflexivity|].
  split; [discriminate|].
  split; [repeat constructor; unfold code_unit; lia|].
  split; [reflexivity|]. split; [reflexivity|discriminate].
Qed.

(** C4, amended. For a phrase and a nonempty PIN that both hold only code
    units below 256, decrypting the encrypted phrase under the same PIN gives
    the phrase back. *)
Theorem encrypt_decrypt_round_trip (m pin : jsstring) :
  Forall latin1 m -> Forall latin1 pin -> pin <> [] ->
  exists blob, encryptWithPin m pin = Ok blob /\ decryptWithPin blob pin = Ok m.
Proof. apply encrypt_decrypt_latin1. Qed.

Lemma encrypt_decrypt_round_trip_witness :
  exists blob,
    encryptWithPin (of_string "abandon about") (of_string "123456") = Ok blob /\
    decryptWithPin blob (of_string "123456") = Ok (of_string "abandon about").
Proof.
  apply encrypt_decrypt_round_trip.
  - apply latin1_check. reflexivity.
  - apply latin1_check. reflexivity.
  - discriminate.
Defined.

(** C5 as stated fails: encrypting the same text under the same PIN twice
    gives the same blob. *)
Lemma encrypt_twice_same_blob :
  encryptWithPin (of_string "abc") (of_string "123456") = Ok (of_string "UFBQ") /\
  ~ (forall b1 b2,
        encryptWithPin (of_string "abc") (of_string "123456") = Ok b1 ->
        encryptWithPin (of_string "abc") (of_string "123456") = Ok b2 ->
        b1 <> b2).
Proof.
  split; [reflexivity|].
  intros Hfresh. now apply (Hfresh (of_string "UFBQ") (of_string "UFBQ")).
Qed.

(** C5, amended. [encryptWithPin] draws no nonce: the blob is a function of
    the text and the PIN alone, and it decodes to exactly one byte per code
    unit of the text, so nothing is stored alongside the ciphertext. *)
Theorem encryptWithPin_deterministic (text pin b1 b2 : jsstring) :
  encryptWithPin text pin = Ok b1 ->
  encryptWithPin text pin = Ok b2 ->
  b1 = b2 /\ length (Buffer.from_base64 b1) = length text.
Proof.
  intros H1 H2. split; [congruence|].
  now apply (encryptWithPin_blob_length text pin).
Qed.

Lemma encryptWithPin_deterministic_witness :
  of_string "UFBQ" = of_string "UFBQ" /\
  length (Buffer.from_base64 (of_string "UFBQ")) = length (of_string "abc").
Proof.
  apply (encryptWithPin_deterministic (of_string "abc") (of_string "123456"));
    reflexivity.
Defined.

(** ** The unlock screen *)

Section Unlock.
Import UnlockScreen.

(** Whatever the number of failed attempts so far, a nonempty PIN submitted
    while an entry is stored is passed to [loadMnemonic] and unlocks. *)
Lemma tryUnlock_ignores_attempts (a : app) (enteredPin : jsstring) (c : Credentials) :
  enteredPin <> [] ->
  keychain (device a) !! MNEMONIC_SERVICE = Some c ->
  isUnlocked (tryUnlock enteredPin a) = true /\
  effects (tryUnlock enteredPin a) = effects a ++ [NavigateMain] /\
  attempts (screen (tryUnlock enteredPin a)) = attempts (screen a).
Proof.
  intros Hpin Hc. unfold tryUnlock.
  rewrite (loadMnemonic_stored enteredPin (device a) c Hc).
  destruct (decryptWithPin_total (password c) enteredPin Hpin) as (s & ->).
  auto.
Qed.

(** A submission that fails counts one more attempt and never unlocks. *)
Lemma tryUnlock_failure (a : app) (enteredPin : jsstring) :
  keychain (device a) !! MNEMONIC_SERVICE = None ->
  isUnlocked (tryUnlock enteredPin a) = isUnlocked a /\
  attempts (screen (tryUnlock enteredPin a)) = S (attempts (screen a)) /\
  pin (screen (tryUnlock enteredPin a)) = [].
Proof.
  intros Hc. unfold tryUnlock.
  rewrite (loadMnemonic_absent enteredPin (device a) Hc). simpl.
  repeat split. lia.
Qed.

(** C2 (code at the failing input). Five submissions fail and the fifth
    raises the "Too many attempts" alert; the screen stays locked with
    [attempts = 5].  Once a phrase is stored under 123456, the next
    submission is still passed to [loadMnemonic]: 123456 unlocks, typed on
    the pad or submitted directly, and so does any other PIN. *)
Theorem lockout_not_enforced :
  attempts (screen five_failed_attempts) = 5%nat /\
  isUnlocked five_failed_attempts = false /\
  last (effects five_failed_attempts) = Some AlertTooManyAttempts /\
  isUnlocked (tryUnlock (of_string "123456") five_failed_attempts_restored) = true /\
  last (effects (tryUnlock (of_string "123456") five_failed_attempts_restored))
    = Some NavigateMain /\
  isUnlocked (handleKey (of_string "6")
                (setPin (of_string "12345") five_failed_attempts_restored)) = true /\
  isUnlocked (tryUnlock (of_string "999999") five_failed_attempts_restored) = true.
Proof. vm_compute. repeat split; reflexivity. Qed.

End Unlock.

(** ** Wiping the wallet *)

(** C6. After [deleteWallet], [loadWalletMeta] resolves to [null], and
    [loadMnemonic] rejects with "No wallet stored on this device" for every
    PIN, without reaching [decryptWithPin]; neither changes the device. *)
Theorem deleteWallet_then_nothing_stored `{JSON} (d : Device) (pin : jsstring) :
  exists d',
    deleteWallet d = (Ok tt, d') /\
    keychain d' !! MNEMONIC_SERVICE = None /\
    encrypted_storage d' !! WALLET_META_KEY = None /\
    loadWalletMeta d' = (Ok None, d') /\
    loadMnemonic pin d' = (Throw NoWalletStored, d').
Proof.
  eexists. split; [reflexivity|]. cbn [keychain encrypted_storage].
  assert (Hk : delete MNEMONIC_SERVICE (keychain d) !! MNEMONIC_SERVICE = None)
    by apply lookup_delete_eq.
  assert (Hs : delete WALLET_META_KEY (encrypted_storage d) !! WALLET_META_KEY = None)
    by apply lookup_delete_eq.
  split; [exact Hk|]. split; [exact Hs|]. split.
  - unfold loadWalletMeta, await, EncryptedStorage.getItem. cbn [encrypted_storage].
    rewrite Hs. reflexivity.
  - now apply loadMnemonic_absent.
Qed.

(** ** Hexadecimal strings and private keys *)

Lemma hex_digit_value v : 0 <= v < 16 -> Hex.digit_value (Hex.digit v) = Some v.
Proof.
  intros Hv.
  pose proof (Z_range_forallb 16
                (fun v => match Hex.digit_value (Hex.digit v) with
                          | Some v' => v' =? v
                          | None => false
                          end)
                ltac:(vm_compute; reflexivity) v Hv) as Hchk.
  cbv beta in Hchk. destruct (Hex.digit_value (Hex.digit v)) as [v'|]; [|discriminate].
  apply Z.eqb_eq in Hchk. now subst.
Qed.

Lemma hex_digit_value_range c v : Hex.digit_value c = Some v -> 0 <= v < 16.
Proof.
  unfold Hex.digit_value. intros Hc.
  repeat match type of Hc with
         | (if ?b then _ else _) = _ => destruct b eqn:?
         end; inversion Hc; lia.
Qed.

Lemma length_hex_digits n v : length (Hex.digits n v) = n.
Proof. induction n as [|n IH]; simpl; [reflexivity|]. now rewrite IH. Qed.

Lemma hex_value_from_digits n v acc :
  Hex.value_from acc (Hex.digits n v) = Some (acc * 16 ^ Z.of_nat n + v mod 16 ^ Z.of_nat n).
Proof.
  revert acc. induction n as [|n IH]; intros acc.
  - simpl. rewrite Z.mod_1_r. f_equal. lia.
  - cbn [Hex.digits Hex.value_from].
    assert (Hpow : 0 < 16 ^ Z.of_nat n) by (apply Z.pow_pos_nonneg; lia).
    rewrite hex_digit_value by (apply Z.mod_pos_bound; lia).
    rewrite IH. f_equal.
    replace (Z.of_nat (S n)) with (Z.of_nat n + 1) by lia.
    rewrite Z.pow_add_r by lia. change (16 ^ 1) with 16.
    rewrite (Z.rem_mul_r v (16 ^ Z.of_nat n) 16) by lia.
    lia.
Qed.

Lemma hex_value_from_all_hex s : forall acc k,
  Hex.value_from acc s = Some k -> Forall is_hex_digit s.
Proof.
  induction s as [|c s IH]; intros acc k Hv; [constructor|].
  cbn [Hex.value_from] in Hv.
  destruct (Hex.digit_value c) as [v|] eqn:Hc; [|discriminate].
  constructor; [exists v; exact Hc | eapply IH; eassumption].
Qed.

(** What [private_scalar] accepts: [0x], then 64 hex digits whose value lies
    strictly between 0 and the group order. *)
Lemma private_scalar_format s k :
  ethers.private_scalar s = Some k ->
  exists digits, s = 48 :: 120 :: digits /\ length digits = 64%nat /\
                 Forall is_hex_digit digits /\ Hex.value digits = Some k /\
                 0 < k < ethers.secp256k1_n.
Proof.
  unfold ethers.private_scalar. intros Hs.
  destruct (starts_with_0x s) eqn:H0x; [|discriminate].
  destruct (length (drop 2 s) =? 64)%nat eqn:Hlen; [|discriminate].
  cbn [andb] in Hs.
  destruct (Hex.value (drop 2 s)) as [v|] eqn:Hv; [|discriminate].
  destruct ((0 <? v) && (v <? ethers.secp256k1_n)) eqn:Hr; [|discriminate].
  injection Hs as <-.
  destruct s as [|c0 [|c1 digits]]; try discriminate.
  unfold starts_with_0x in H0x.
  assert (c0 = 48 /\ c1 = 120) as [-> ->].
  { destruct c0 as [|p|p]; try discriminate.
    repeat (destruct p as [p|p|]; try discriminate).
    destruct c1 as [|p|p]; try discriminate.
    repeat (destruct p as [p|p|]; try discriminate). auto. }
  cbn [drop] in *. exists digits.
  apply Nat.eqb_eq in Hlen. apply andb_true_iff in Hr as [Hr1 Hr2].
  repeat split; try assumption; try lia.
  unfold Hex.value in Hv. eapply hex_value_from_all_hex; eassumption.
Qed.

(** The hex form of an in-range scalar is read back as that scalar. *)
Lemma private_scalar_hexlify32 k :
  0 < k < ethers.secp256k1_n -> ethers.private_scalar (ethers.hexlify32 k) = Some k.
Proof.
  intros Hk. unfold ethers.private_scalar, ethers.hexlify32.
  cbn [starts_with_0x drop]. rewrite !drop_0, length_hex_digits.
  change (64 =? 64)%nat with true. cbn [andb].
  unfold Hex.value. rewrite hex_value_from_digits.
  assert (Hn : ethers.secp256k1_n < 16 ^ Z.of_nat 64) by (vm_compute; reflexivity).
  rewrite Z.mod_small by lia. rewrite Z.mul_0_l, Z.add_0_l.
  destruct (0 <? k) eqn:H1; [|lia]. destruct (k <? ethers.secp256k1_n) eqn:H2; [|lia].
  reflexivity.
Qed.

(** ** Importing a private key *)

Lemma importFromPrivateKey_eq `{ethers.Crypto} (privateKey : jsstring) (d : Device) :
  importFromPrivateKey privateKey d =
    (match ethers.private_scalar (trim privateKey) with
     | Some k => Ok (ethers.computeAddress k)
     | None => Throw ethers.InvalidPrivateKey
     end, d).
Proof.
  unfold importFromPrivateKey, await, lift, resolve, ethers.Wallet.new.
  destruct (ethers.private_scalar (trim privateKey)); reflexivity.
Qed.

(** C8 as stated fails: a key with a leading space is not 0x-prefixed, yet
    [importFromPrivateKey] trims it and returns the address of the key. *)
Lemma importFromPrivateKey_accepts_padded_key :
  ethers.private_scalar
    (of_string " 0x0000000000000000000000000000000000000000000000000000000000000001") = None /\
  forall (C : ethers.Crypto) (d : Device),
    importFromPrivateKey
      (of_string " 0x0000000000000000000000000000000000000000000000000000000000000001") d
    = (Ok (ethers.computeAddress 1), d).
Proof.
  split; [reflexivity|]. intros C d. rewrite importFromPrivateKey_eq.
  reflexivity.
Qed.

(** C8, amended. [importFromPrivateKey] trims surrounding white space and
    validates what remains: a trimmed key that is 0x-prefixed with 64 hex
    characters (and a scalar in range) gives the address of that key; any
    other input, such as 0xINVALIDHEX, is rejected with the invalid-key
    error; the device stores are never written. *)
Theorem importFromPrivateKey_validates_trimmed `{ethers.Crypto}
    (privateKey : jsstring) (d : Device) :
  (forall k, ethers.private_scalar (trim privateKey) = Some k ->
             importFromPrivateKey privateKey d = (Ok (ethers.computeAddress k), d)) /\
  (ethers.private_scalar (trim privateKey) = None ->
   importFromPrivateKey privateKey d = (Throw ethers.InvalidPrivateKey, d)) /\
  importFromPrivateKey (of_string "0xINVALIDHEX") d = (Throw ethers.InvalidPrivateKey, d) /\
  (forall k, ethers.private_scalar (trim privateKey) = Some k ->
     exists digits, trim privateKey = 48 :: 120 :: digits /\ length digits = 64%nat /\
                    Forall is_hex_digit digits /\ Hex.value digits = Some k /\
                    0 < k < ethers.secp256k1_n).
Proof.
  split; [|split; [|split]].
  - intros k Hk. now rewrite importFromPrivateKey_eq, Hk.
  - intros Hk. now rewrite importFromPrivateKey_eq, Hk.
  - rewrite importFromPrivateKey_eq. reflexivity.
  - intros k Hk. now apply private_scalar_format.
Qed.

Lemma importFromPrivateKey_validates_trimmed_witness :
  @importFromPrivateKey fixture_crypto
    (of_string "  0x0000000000000000000000000000000000000000000000000000000000000001 ")
    fixture_device
  = (Ok (of_string "0x7E5F4552091A69125d5DfCb7b8C2659029395Bdf"), fixture_device) /\
  @importFromPrivateKey fixture_crypto (of_string "0x01") fixture_device
  = (Throw ethers.InvalidPrivateKey, fixture_device).
Proof.
  split.
  - refine (proj1 (@importFromPrivateKey_validates_trimmed fixture_crypto _ _) 1 _).
    reflexivity.
  - refine (proj1 (proj2 (@importFromPrivateKey_validates_trimmed fixture_crypto _ _)) _).
    reflexivity.
Defined.

(** ** The signer of a chain *)

Lemma loadMnemonic_keeps_device pin d r d' : loadMnemonic pin d = (r, d') -> d' = d.
Proof.
  unfold loadMnemonic, await, Keychain.getGenericPassword, reject, lift.
  destruct (keychain d !! MNEMONIC_SERVICE); intros Hl; now inversion Hl.
Qed.

Lemma deriveAddress_eq `{ethers.Crypto} (mnemonic : jsstring) (d : Device) :
  deriveAddress mnemonic d =
    (match ethers.derive_scalar mnemonic DERIVATION_PATH with
     | Ok k => Ok (ethers.computeAddress k)
     | Throw e => Throw e
     end, d).
Proof.
  unfold deriveAddress, await, lift, resolve, ethers.HDNodeWallet.fromPhrase, JS.bind.
  destruct (ethers.derive_scalar mnemonic DERIVATION_PATH); reflexivity.
Qed.

Lemma getSigner_eq `{ethers.Crypto} {laws : ethers.CryptoLaws}
    (chainKey : string) (chain : Chain) (pin mnemonic : jsstring) (d : Device) :
  loadMnemonic pin d = (Ok mnemonic, d) ->
  CHAINS !! chainKey = Some chain ->
  getSigner chainKey pin d =
    (match ethers.derive_scalar mnemonic DERIVATION_PATH with
     | Ok k => Ok {| ethers.Wallet.privateKey := ethers.hexlify32 k;
                     ethers.Wallet.address := ethers.computeAddress k;
                     ethers.Wallet.provider := Some (ethers.JsonRpcProvider (rpcUrl chain)) |}
     | Throw e => Throw e
     end, d).
Proof.
  intros Hload Hchain. unfold getSigner, await. rewrite Hload.
  unfold CHAINS_rpcUrl. rewrite Hchain.
  unfold lift, ethers.HDNodeWallet.fromPhrase, JS.bind.
  cbn [ethers.new_JsonRpcProvider].
  destruct (ethers.derive_scalar mnemonic DERIVATION_PATH) as [k|e] eqn:Hk; [|reflexivity].
  cbn [ethers.HDNodeWallet.privateKey]. unfold ethers.Wallet.new.
  rewrite (private_scalar_hexlify32 k (ethers.derive_scalar_range _ _ _ Hk)).
  reflexivity.
Qed.

(** C9. For the phrase a PIN loads and every configured chain key, [getSigner]
    derives at [DERIVATION_PATH]: whenever the phrase has an address, the
    signer exists, holds the key derived at that path and has that address,
    whichever chain was asked for; conversely a signer's address is the
    phrase's address.  Two configured chains therefore give signers with the
    same address. *)
Theorem getSigner_single_address `{ethers.Crypto} {laws : ethers.CryptoLaws}
    (d : Device) (pin mnemonic : jsstring) (chainKey : string) (chain : Chain) :
  loadMnemonic pin d = (Ok mnemonic, d) ->
  CHAINS !! chainKey = Some chain ->
  DERIVATION_PATH = "m/44'/60'/0'/0/0"%string /\
  (forall a, deriveAddress mnemonic d = (Ok a, d) ->
     exists k signer,
       ethers.derive_scalar mnemonic DERIVATION_PATH = Ok k /\
       getSigner chainKey pin d = (Ok signer, d) /\
       ethers.Wallet.privateKey signer = ethers.hexlify32 k /\
       ethers.Wallet.address signer = a /\
       ethers.Wallet.provider signer = Some (ethers.JsonRpcProvider (rpcUrl chain))) /\
  (forall signer d', getSigner chainKey pin d = (Ok signer, d') ->
     d' = d /\ deriveAddress mnemonic d = (Ok (ethers.Wallet.address signer), d)) /\
  (forall chainKey' chain' signer signer' d1 d2,
     CHAINS !! chainKey' = Some chain' ->
     getSigner chainKey pin d = (Ok signer, d1) ->
     getSigner chainKey' pin d = (Ok signer', d2) ->
     ethers.Wallet.address signer = ethers.Wallet.address signer').
Proof.
  intros Hload Hchain. split; [reflexivity|]. split; [|split].
  - intros a Ha. rewrite deriveAddress_eq in Ha.
    rewrite (getSigner_eq chainKey chain pin mnemonic d Hload Hchain).
    destruct (ethers.derive_scalar mnemonic DERIVATION_PATH) as [k|e]; [|discriminate].
    injection Ha as <-. eexists. eexists. repeat split; reflexivity.
  - intros signer d' Hs.
    rewrite (getSigner_eq chainKey chain pin mnemonic d Hload Hchain) in Hs.
    rewrite deriveAddress_eq.
    destruct (ethers.derive_scalar mnemonic DERIVATION_PATH) as [k|e]; [|discriminate].
    injection Hs as <- <-. split; reflexivity.
  - intros chainKey' chain' signer signer' d1 d2 Hchain' Hs Hs'.
    rewrite (getSigner_eq chainKey chain pin mnemonic d Hload Hchain) in Hs.
    rewrite (getSigner_eq chainKey' chain' pin mnemonic d Hload Hchain') in Hs'.
    destruct (ethers.derive_scalar mnemonic DERIVATION_PATH) as [k|e]; [|discriminate].
    injection Hs as <- <-. injection Hs' as <- <-. reflexivity.
Qed.

(** ** BIP-39: bits, chunks, words *)

Section Bip39Facts.
Import bip39.

Lemma length_bits_of w v : length (bits_of w v) = w.
Proof. induction w as [|w IH]; simpl; [reflexivity|]. now rewrite IH. Qed.

Lemma foldl_value_of bits acc :
  foldl (fun acc b => 2 * acc + Z.b2z b) acc bits
  = acc * 2 ^ Z.of_nat (length bits) + value_of bits.
Proof.
  unfold value_of. revert acc.
  induction bits as [|b bits IH]; intros acc.
  - simpl. lia.
  - cbn [foldl length]. rewrite IH, (IH (2 * 0 + Z.b2z b)).
    replace (Z.of_nat (S (length bits))) with (Z.of_nat (length bits) + 1) by lia.
    rewrite Z.pow_add_r by lia. lia.
Qed.

Lemma value_of_cons b bits :
  value_of (b :: bits) = Z.b2z b * 2 ^ Z.of_nat (length bits) + value_of bits.
Proof.
  unfold value_of at 1. cbn [foldl]. rewrite foldl_value_of. lia.
Qed.

Lemma value_of_range bits : 0 <= value_of bits < 2 ^ Z.of_nat (length bits).
Proof.
  induction bits as [|b bits IH].
  - unfold value_of. simpl. lia.
  - rewrite value_of_cons.
    replace (Z.of_nat (length (b :: bits))) with (Z.of_nat (length bits) + 1)
      by (simpl; lia).
    rewrite Z.pow_add_r by lia.
    destruct b; simpl Z.b2z; lia.
Qed.

Lemma bits_of_mod w v : bits_of w (v mod 2 ^ Z.of_nat w) = bits_of w v.
Proof.
  assert (Hgen : forall n, (n <= w)%nat ->
            bits_of n (v mod 2 ^ Z.of_nat w) = bits_of n v).
  { induction n as [|n IH]; intros Hn; [reflexivity|].
    cbn [bits_of]. rewrite IH by lia. f_equal.
    apply Z.mod_pow2_bits_low. lia. }
  now apply Hgen.
Qed.

Lemma value_of_bits_of w v : 0 <= v < 2 ^ Z.of_nat w -> value_of (bits_of w v) = v.
Proof.
  revert v. induction w as [|w IH]; intros v Hv.
  - simpl in Hv. unfold value_of. simpl. lia.
  - cbn [bits_of]. rewrite value_of_cons, length_bits_of.
    rewrite <- bits_of_mod, IH by (apply Z.mod_pos_bound; lia).
    rewrite Z.testbit_spec' by lia.
    replace (Z.of_nat (S w)) with (Z.of_nat w + 1) in Hv by lia.
    rewrite Z.pow_add_r in Hv by lia. change (2 ^ 1) with 2 in Hv.
    assert (Hpow : 0 < 2 ^ Z.of_nat w) by (apply Z.pow_pos_nonneg; lia).
    pose proof (Z.rem_mul_r v (2 ^ Z.of_nat w) 2 ltac:(lia) ltac:(lia)) as Hrem.
    rewrite (Z.mod_small v (2 ^ Z.of_nat w * 2)) in Hrem by lia.
    lia.
Qed.

Lemma bits_of_value_of bits : bits_of (length bits) (value_of bits) = bits.
Proof.
  induction bits as [|b bits IH]; [reflexivity|].
  cbn [length bits_of]. rewrite value_of_cons.
  pose proof (value_of_range bits) as Hr.
  assert (Hpow : 0 < 2 ^ Z.of_nat (length bits)) by (apply Z.pow_pos_nonneg; lia).
  f_equal.
  - assert (Hbit : Z.b2z (Z.testbit (Z.b2z b * 2 ^ Z.of_nat (length bits) + value_of bits)
                                      (Z.of_nat (length bits))) = Z.b2z b).
    { rewrite Z.testbit_spec' by lia.
      rewrite Z.div_add_l by lia. rewrite Z.div_small by lia.
      destruct b; reflexivity. }
    destruct (Z.testbit _ _), b; simpl in Hbit; congruence.
  - rewrite <- bits_of_mod.
    rewrite Z.add_comm, Z.mod_add by lia.
    rewrite Z.mod_small by lia. exact IH.
Qed.

Lemma length_bytesToBinary bytes : length (bytesToBinary bytes) = (8 * length bytes)%nat.
Proof.
  unfold bytesToBinary. induction bytes as [|b bytes IH]; [reflexivity|].
  cbn [map concat]. rewrite length_app, length_bits_of, IH. simpl. lia.
Qed.

Lemma chunks_fuel_nil {A} fuel n : @chunks_fuel A fuel n [] = [].
Proof. destruct fuel; reflexivity. Qed.

(** A list of [k * n] elements is cut into [k] pieces of [n] elements. *)
Lemma chunks_fuel_exact {A} (n : nat) : (0 < n)%nat ->
  forall k fuel (l : list A),
    length l = (k * n)%nat -> (k <= fuel)%nat ->
    length (chunks_fuel fuel n l) = k /\
    Forall (fun c => length c = n) (chunks_fuel fuel n l) /\
    concat (chunks_fuel fuel n l) = l.
Proof.
  intros Hn. induction k as [|k IH]; intros fuel l Hlen Hfuel.
  - destruct l; [|discriminate]. rewrite chunks_fuel_nil. repeat split. constructor.
  - destruct fuel as [|fuel]; [lia|].
    destruct l as [|x l]; [simpl in Hlen; lia|].
    cbn [chunks_fuel].
    destruct (IH fuel (drop n (x :: l))) as (IH1 & IH2 & IH3).
    { rewrite length_drop, Hlen. simpl. lia. }
    { lia. }
    cbn [length concat]. rewrite IH1, IH3, take_drop. repeat split.
    constructor; [|exact IH2].
    rewrite length_take, Hlen. simpl. lia.
Qed.

Lemma chunks_exact {A} (n k : nat) (l : list A) :
  (0 < n)%nat -> length l = (k * n)%nat ->
  length (chunks n l) = k /\ Forall (fun c => length c = n) (chunks n l) /\
  concat (chunks n l) = l.
Proof.
  intros Hn Hlen. unfold chunks. apply chunks_fuel_exact; [assumption..|].
  rewrite Hlen. nia.
Qed.

(** Pieces of equal length are recovered from their concatenation. *)
Lemma chunks_fuel_concat {A} (n : nat) : (0 < n)%nat ->
  forall (cs : list (list A)) fuel,
    Forall (fun c => length c = n) cs -> (length cs <= fuel)%nat ->
    chunks_fuel fuel n (concat cs) = cs.
Proof.
  intros Hn. induction cs as [|c cs IH]; intros fuel Hall Hfuel.
  - apply chunks_fuel_nil.
  - apply Forall_cons in Hall as [Hc Hall].
    destruct fuel as [|fuel]; [simpl in Hfuel; lia|].
    cbn [concat chunks_fuel].
    destruct c as [|x c]; [simpl in Hc; lia|].
    change ((x :: c) ++ concat cs) with (x :: (c ++ concat cs)).
    cbv iota. change (x :: (c ++ concat cs)) with ((x :: c) ++ concat cs).
    rewrite <- Hc, take_app_length, drop_app_length.
    rewrite Hc, IH; [reflexivity | assumption | simpl in Hfuel; lia].
Qed.

Lemma chunks_concat {A} (n : nat) (cs : list (list A)) :
  (0 < n)%nat -> Forall (fun c => length c = n) cs -> chunks n (concat cs) = cs.
Proof.
  intros Hn Hall. unfold chunks. apply chunks_fuel_concat; [assumption..|].
  clear -Hn Hall. induction Hall as [|c cs Hc _ IH]; [simpl; lia|].
  cbn [concat length]. rewrite length_app. lia.
Qed.

(** *** Words *)

Lemma split_space_word w :
  32 ∉ w -> split_space w = [w].
Proof.
  induction w as [|c w IH]; intros Hw; [reflexivity|].
  apply not_elem_of_cons in Hw as [Hc Hw].
  cbn [split_space]. destruct (c =? 32) eqn:E; [lia|].
  now rewrite IH.
Qed.

Lemma split_space_app w rest :
  32 ∉ w -> split_space (w ++ 32 :: rest) = w :: split_space rest.
Proof.
  induction w as [|c w IH]; intros Hw; [reflexivity|].
  apply not_elem_of_cons in Hw as [Hc Hw].
  cbn [app split_space]. destruct (c =? 32) eqn:E; [lia|].
  now rewrite IH.
Qed.

Lemma split_space_join_space ws :
  ws <> [] -> Forall (fun w => 32 ∉ w) ws -> split_space (join_space ws) = ws.
Proof.
  intros Hne Hall. destruct ws as [|w ws]; [congruence|]. clear Hne.
  revert w Hall. induction ws as [|w' ws IH]; intros w Hall.
  - apply Forall_cons in Hall as [Hw _]. simpl. rewrite app_nil_r.
    now apply split_space_word.
  - apply Forall_cons in Hall as [Hw Hall].
    cbn [join_space map concat].
    change ((32 :: w') ++ concat (map (fun w0 => 32 :: w0) ws))
      with (32 :: join_space (w' :: ws)).
    rewrite split_space_app by assumption.
    f_equal. exact (IH w' Hall).
Qed.

Lemma indexOf_nth (wl : list jsstring) (i : nat) :
  NoDup wl -> (i < length wl)%nat -> indexOf (nth i wl []) wl = Some i.
Proof.
  intros Hnd. revert i. induction Hnd as [|w wl Hw Hnd IH]; intros i Hi.
  - simpl in Hi. lia.
  - destruct i as [|i]; cbn [nth indexOf].
    + now rewrite decide_True.
    + simpl in Hi. rewrite decide_False.
      * rewrite IH by lia. reflexivity.
      * intros ->. apply Hw. apply list_elem_of_In, nth_In. lia.
Qed.

End Bip39Facts.

Section Bip39RoundTrip.
Import bip39.
Context `{Params} {laws : ParamsLaws}.

Lemma chunk_index_lt (c : list bool) :
  length c = 11%nat -> (Z.to_nat (value_of c) < length wordlist)%nat.
Proof.
  intros Hc. pose proof (value_of_range c) as Hr. rewrite Hc in Hr.
  rewrite wordlist_length. change (2 ^ Z.of_nat 11) with 2048 in Hr. lia.
Qed.

Lemma chunk_word_in_wordlist (c : list bool) :
  length c = 11%nat -> nth (Z.to_nat (value_of c)) wordlist [] ∈ wordlist.
Proof. intros Hc. apply list_elem_of_In, nth_In. now apply chunk_index_lt. Qed.

Lemma word_indices_of_chunks (cks : list (list bool)) :
  Forall (fun c => length c = 11%nat) cks ->
  word_indices (map (fun c => nth (Z.to_nat (value_of c)) wordlist []) cks)
  = Some (map (fun c => Z.to_nat (value_of c)) cks).
Proof.
  induction 1 as [|c cks Hc _ IH]; [reflexivity|].
  cbn [map word_indices].
  rewrite (indexOf_nth wordlist _ wordlist_NoDup (chunk_index_lt c Hc)), IH.
  reflexivity.
Qed.

Lemma bits_of_chunk_indices (cks : list (list bool)) :
  Forall (fun c => length c = 11%nat) cks ->
  concat (map (fun i => bits_of 11 (Z.of_nat i))
              (map (fun c => Z.to_nat (value_of c)) cks))
  = concat cks.
Proof.
  induction 1 as [|c cks Hc _ IH]; [reflexivity|].
  cbn [map concat]. rewrite IH. f_equal.
  pose proof (value_of_range c). rewrite Z2Nat.id by lia.
  rewrite <- Hc at 1. apply bits_of_value_of.
Qed.

Lemma bytes_of_bits (bytes : list Z) :
  Forall latin1 bytes -> map value_of (chunks 8 (bytesToBinary bytes)) = bytes.
Proof.
  intros Hall. unfold bytesToBinary.
  rewrite chunks_concat; [|lia|].
  - rewrite map_map. induction Hall as [|b bytes Hb _ IH]; [reflexivity|].
    cbn [map]. rewrite IH. f_equal. apply value_of_bits_of.
    unfold latin1 in Hb. change (2 ^ Z.of_nat 8) with 256. lia.
  - apply Forall_map, Forall_forall. intros b _. apply length_bits_of.
Qed.

Lemma entropy_length_ok_4j (j : nat) : (4 <= j <= 8)%nat -> entropy_length_ok (4 * j) = true.
Proof.
  intros Hj.
  assert (Hcases : j = 4%nat \/ j = 5%nat \/ j = 6%nat \/ j = 7%nat \/ j = 8%nat) by lia.
  destruct Hcases as [-> | [-> | [-> | [-> | ->]]]]; reflexivity.
Qed.

Lemma length_deriveChecksumBits (entropy : list Z) (j : nat) :
  length entropy = (4 * j)%nat -> (j <= 8)%nat ->
  length (deriveChecksumBits entropy) = j.
Proof.
  intros Hlen Hj. unfold deriveChecksumBits.
  rewrite length_take, length_bytesToBinary, sha256_length, Hlen.
  replace (4 * j * 8)%nat with (j * 32)%nat by lia.
  rewrite Nat.div_mul by lia. lia.
Qed.

(** Encoding 16 to 32 bytes of entropy gives [3 * j] words of the list, for
    an entropy of [4 * j] bytes, and decoding the phrase gives the entropy
    back: the phrase passes the word-list and checksum checks. *)
Lemma entropyToMnemonic_round_trip (entropy : list Z) (j : nat) :
  length entropy = (4 * j)%nat -> (4 <= j <= 8)%nat -> Forall latin1 entropy ->
  exists mnemonic,
    entropyToMnemonic entropy = Ok mnemonic /\
    length (split_space mnemonic) = (3 * j)%nat /\
    Forall (fun w => w ∈ wordlist) (split_space mnemonic) /\
    mnemonicToEntropy mnemonic = Ok entropy.
Proof.
  intros Hlen Hj Hbytes.
  pose proof (entropy_length_ok_4j j Hj) as Hok. rewrite <- Hlen in Hok.
  pose proof (length_deriveChecksumBits entropy j Hlen ltac:(lia)) as Hcs.
  set (ebits := bytesToBinary entropy).
  set (cs := deriveChecksumBits entropy) in *.
  assert (Hebits : length ebits = (32 * j)%nat).
  { subst ebits. rewrite length_bytesToBinary, Hlen. lia. }
  assert (Hbits : length (ebits ++ cs) = (3 * j * 11)%nat).
  { rewrite length_app, Hebits, Hcs. lia. }
  destruct (chunks_exact 11 (3 * j) (ebits ++ cs) ltac:(lia) Hbits)
    as (Hn & Hall & Hcat).
  set (cks := chunks 11 (ebits ++ cs)) in *.
  set (words := map (fun c => nth (Z.to_nat (value_of c)) wordlist []) cks).
  assert (Hwords_len : length words = (3 * j)%nat).
  { subst words. now rewrite length_map. }
  assert (Hwords_in : Forall (fun w => w ∈ wordlist) words).
  { subst words. apply Forall_map. eapply Forall_impl; [exact Hall|].
    intros c Hc. now apply chunk_word_in_wordlist. }
  assert (Hsplit : split_space (join_space words) = words).
  { apply split_space_join_space.
    - intros Hnil. rewrite Hnil in Hwords_len. simpl in Hwords_len. lia.
    - eapply Forall_impl; [exact Hwords_in|]. intros w Hw.
      pose proof wordlist_no_space as Hns. rewrite Forall_forall in Hns.
      now apply Hns. }
  exists (join_space words). split; [|split; [|split]].
  - unfold entropyToMnemonic. rewrite Hok. reflexivity.
  - now rewrite Hsplit.
  - now rewrite Hsplit.
  - unfold mnemonicToEntropy. cbv zeta. rewrite Hsplit, Hwords_len.
    replace (3 * j)%nat with (j * 3)%nat by lia.
    rewrite Nat.Div0.mod_mul. cbn [Nat.eqb negb].
    subst words. rewrite (word_indices_of_chunks cks Hall).
    rewrite (bits_of_chunk_indices cks Hall), Hcat, Hbits.
    replace (3 * j * 11)%nat with (j * 33)%nat by lia.
    rewrite Nat.div_mul by lia.
    rewrite (take_app_length' ebits cs) by lia.
    rewrite (drop_app_length' ebits cs) by lia.
    subst ebits. rewrite (bytes_of_bits entropy Hbytes), Hok. cbn [negb].
    fold cs. rewrite decide_True by reflexivity. reflexivity.
Qed.

(** 128 bits of entropy: twelve words of the list, accepted by
    [validateMnemonic]. *)
Lemma generateMnemonic_128 (rng : nat -> list Z) :
  length (rng 16%nat) = 16%nat -> Forall latin1 (rng 16%nat) ->
  exists mnemonic,
    generateMnemonic 128 rng = Ok mnemonic /\
    length (split_space mnemonic) = 12%nat /\
    Forall (fun w => w ∈ wordlist) (split_space mnemonic) /\
    mnemonicToEntropy mnemonic = Ok (rng 16%nat) /\
    validateMnemonic mnemonic = true.
Proof.
  intros Hlen Hbytes.
  destruct (entropyToMnemonic_round_trip (rng 16%nat) 4 Hlen ltac:(lia) Hbytes)
    as (mnemonic & Henc & Hwords & Hin & Hdec).
  exists mnemonic. unfold generateMnemonic, validateMnemonic.
  change (128 mod 32 =? 0)%nat with true. change (128 / 8)%nat with 16%nat.
  cbn [negb]. rewrite Hdec. auto.
Qed.

(** A phrase is accepted only if its words are from the list and its
    checksum bits are those of the entropy it decodes to. *)
Lemma validateMnemonic_true (mnemonic : jsstring) :
  validateMnemonic mnemonic = true ->
  exists indices entropy,
    word_indices (split_space mnemonic) = Some indices /\
    mnemonicToEntropy mnemonic = Ok entropy /\
    deriveChecksumBits entropy
    = drop (length (concat (map (fun i => bits_of 11 (Z.of_nat i)) indices)) / 33 * 32)
           (concat (map (fun i => bits_of 11 (Z.of_nat i)) indices)).
Proof.
  unfold validateMnemonic.
  destruct (mnemonicToEntropy mnemonic) as [entropy|e] eqn:Hdec; [|discriminate].
  intros _. unfold mnemonicToEntropy in Hdec. cbv zeta in Hdec.
  destruct (negb _); [discriminate|].
  destruct (word_indices (split_space mnemonic)) as [indices|]; [|discriminate].
  destruct (negb _); [discriminate|].
  destruct (decide _) as [Hcs|]; [|discriminate].
  injection Hdec as <-. eauto.
Qed.

Lemma word_indices_in_wordlist (words : list jsstring) (indices : list nat) :
  word_indices words = Some indices -> Forall (fun w => w ∈ wordlist) words.
Proof.
  revert indices. induction words as [|w words IH]; intros indices Hw; [constructor|].
  cbn [word_indices] in Hw.
  destruct (indexOf w wordlist) as [i|] eqn:Hi; [|discriminate].
  destruct (word_indices words) as [rest|]; [|discriminate].
  constructor; [|eapply IH; reflexivity].
  clear -Hi. revert i Hi. induction wordlist as [|x wl IHwl]; intros i Hi; [discriminate|].
  cbn [indexOf] in Hi. destruct (decide (x = w)) as [->|].
  - apply list_elem_of_here.
  - apply list_elem_of_further. destruct (indexOf w wl) as [i'|]; [|discriminate].
    eapply IHwl. reflexivity.
Qed.

End Bip39RoundTrip.

(** ** Stand-ins satisfy the laws *)

Lemma fixture_crypto_laws : @ethers.CryptoLaws fixture_crypto.
Proof.
  constructor. intros phrase path k Hk. cbn in Hk. injection Hk as <-.
  split; [lia | vm_compute; reflexivity].
Qed.

Lemma fixture_bip39_laws : @bip39.ParamsLaws fixture_bip39.
Proof.
  constructor; cbn [bip39.wordlist bip39.sha256 fixture_bip39].
  - now rewrite length_fmap, length_seq.
  - assert (Hinj : Inj (=) (=) (fun i : nat => [Z.of_nat i + 256]))
      by (intros i i' Heq; injection Heq; lia).
    apply NoDup_fmap_2; [exact Hinj | apply NoDup_seq].
  - apply Forall_fmap, Forall_forall. intros i _ Hin.
    apply list_elem_of_singleton in Hin. lia.
  - intros m. apply length_replicate.
Qed.

(** ** Trimming *)

Lemma trim_start_spec (s : jsstring) :
  exists lead, s = lead ++ trim_start s /\ Forall white_space lead /\
               forall c rest, trim_start s = c :: rest -> is_white_space c = false.
Proof.
  induction s as [|c s (lead & Hs & Hlead & Hhd)].
  - exists []. repeat split; [constructor | discriminate].
  - cbn [trim_start]. destruct (is_white_space c) eqn:Hc.
    + exists (c :: lead). split; [cbn [app]; now f_equal|].
      split; [constructor; assumption | exact Hhd].
    + exists []. split; [reflexivity|]. split; [constructor|].
      intros c' rest Heq. now injection Heq as <- _.
Qed.

Lemma trim_end_spec (s : jsstring) :
  exists trail, s = trim_end s ++ trail /\ Forall white_space trail /\
                forall front c, trim_end s = front ++ [c] -> is_white_space c = false.
Proof.
  unfold trim_end. destruct (trim_start_spec (rev s)) as (lead & Hs & Hlead & Hhd).
  exists (rev lead). split; [|split].
  - rewrite <- rev_app_distr, <- Hs. now rewrite rev_involutive.
  - now apply Forall_rev.
  - intros front c Heq. apply (f_equal (@rev Z)) in Heq.
    rewrite rev_involutive, rev_app_distr in Heq. cbn [rev app] in Heq.
    eapply Hhd. exact Heq.
Qed.

(** [trim] removes a run of white space at each end and leaves a string that
    neither starts nor ends with white space. *)
Lemma trim_spec (s : jsstring) :
  exists lead trail,
    s = lead ++ trim s ++ trail /\ Forall white_space lead /\ Forall white_space trail /\
    (forall c rest, trim s = c :: rest -> is_white_space c = false) /\
    (forall front c, trim s = front ++ [c] -> is_white_space c = false).
Proof.
  unfold trim.
  destruct (trim_start_spec s) as (lead & Hs & Hlead & Hhd).
  destruct (trim_end_spec (trim_start s)) as (trail & Ht & Htrail & Hlast).
  exists lead, trail. split; [|split; [|split; [|split]]]; try assumption.
  - now rewrite <- Ht.
  - intros c rest Heq. rewrite Heq in Ht. cbn [app] in Ht. eapply Hhd. exact Ht.
Qed.

(** ** Importing and generating a phrase *)

(** C7. [importFromMnemonic] trims surrounding white space and validates the
    trimmed phrase: a phrase failing validation is rejected with the
    invalid-mnemonic error and nothing is written; a phrase passing it has
    all its words in the word list and a matching checksum, and the result
    is the address derived from the trimmed phrase: the address computed
    from the private scalar that the trimmed phrase has at the derivation
    path m/44'/60'/0'/0/0. *)
Theorem importFromMnemonic_validates_trimmed `{ethers.Crypto} `{bip39.Params}
    (phrase : jsstring) (d : Device) :
  (exists lead trail,
      phrase = lead ++ trim phrase ++ trail /\
      Forall white_space lead /\ Forall white_space trail /\
      (forall c rest, trim phrase = c :: rest -> is_white_space c = false) /\
      (forall front c, trim phrase = front ++ [c] -> is_white_space c = false)) /\
  (bip39.validateMnemonic (trim phrase) = false ->
   importFromMnemonic phrase d = (Throw InvalidMnemonic, d)) /\
  (bip39.validateMnemonic (trim phrase) = true ->
   importFromMnemonic phrase d = deriveAddress (trim phrase) d /\
   DERIVATION_PATH = "m/44'/60'/0'/0/0"%string /\
   importFromMnemonic phrase d
   = (match ethers.derive_scalar (trim phrase) DERIVATION_PATH with
      | Ok k => Ok (ethers.computeAddress k)
      | Throw e => Throw e
      end, d) /\
   (forall k, ethers.derive_scalar (trim phrase) DERIVATION_PATH = Ok k ->
              importFromMnemonic phrase d = (Ok (ethers.computeAddress k), d)) /\
   snd (importFromMnemonic phrase d) = d /\
   Forall (fun w => w ∈ bip39.wordlist) (bip39.split_space (trim phrase)) /\
   exists indices entropy,
     bip39.word_indices (bip39.split_space (trim phrase)) = Some indices /\
     bip39.mnemonicToEntropy (trim phrase) = Ok entropy /\
     bip39.deriveChecksumBits entropy
     = drop (length (concat (map (fun i => bip39.bits_of 11 (Z.of_nat i)) indices))
             / 33 * 32)
            (concat (map (fun i => bip39.bits_of 11 (Z.of_nat i)) indices))).
Proof.
  split; [apply trim_spec|]. split.
  - intros Hv. unfold importFromMnemonic. now rewrite Hv.
  - intros Hv. unfold importFromMnemonic. rewrite Hv. cbn [negb].
    split; [reflexivity|]. split; [reflexivity|].
    split; [apply deriveAddress_eq|].
    split; [intros k Hk; now rewrite deriveAddress_eq, Hk|].
    split; [now rewrite deriveAddress_eq|].
    destruct (validateMnemonic_true _ Hv) as (indices & entropy & Hidx & Hdec & Hcs).
    split; [eapply word_indices_in_wordlist; exact Hidx|].
    exists indices, entropy. auto.
Qed.

Lemma importFromMnemonic_validates_trimmed_witness :
  @importFromMnemonic fixture_crypto fixture_bip39 (of_string "  not a phrase ")
    fixture_device
  = (Throw InvalidMnemonic, fixture_device) /\
  @importFromMnemonic fixture_crypto fixture_bip39 (32 :: fixture_phrase ++ [10])
    fixture_device
  = @deriveAddress fixture_crypto fixture_phrase fixture_device /\
  @importFromMnemonic fixture_crypto fixture_bip39 (32 :: fixture_phrase ++ [10])
    fixture_device
  = (Ok (@ethers.computeAddress fixture_crypto 1), fixture_device).
Proof.
  split; [|split].
  - refine (proj1 (proj2 (@importFromMnemonic_validates_trimmed
                            fixture_crypto fixture_bip39 _ _)) _).
    vm_compute. reflexivity.
  - refine (proj1 (proj2 (proj2 (@importFromMnemonic_validates_trimmed
                                   fixture_crypto fixture_bip39
                                   (32 :: fixture_phrase ++ [10]) fixture_device)) _)).
    vm_compute. reflexivity.
  - refine (proj1 (proj2 (proj2 (proj2 (proj2 (proj2
              (@importFromMnemonic_validates_trimmed
                 fixture_crypto fixture_bip39
                 (32 :: fixture_phrase ++ [10]) fixture_device)) _)))) 1 _).
    + vm_compute. reflexivity.
    + vm_compute. reflexivity.
Defined.

Lemma getSigner_single_address_witness :
  exists k signer,
    @ethers.derive_scalar fixture_crypto
      (of_string "abandon abandon abandon abandon abandon abandon abandon abandon abandon abandon abandon about")
      DERIVATION_PATH = Ok k /\
    @getSigner fixture_crypto "bsc" (of_string "123456") fixture_device
    = (Ok signer, fixture_device) /\
    ethers.Wallet.privateKey signer = ethers.hexlify32 k /\
    ethers.Wallet.address signer = of_string "0x7E5F4552091A69125d5DfCb7b8C2659029395Bdf" /\
    ethers.Wallet.provider signer
    = Some (ethers.JsonRpcProvider "https://bsc-dataseed.binance.org").
Proof.
  refine (proj1 (proj2 (@getSigner_single_address fixture_crypto fixture_crypto_laws
                   fixture_device (of_string "123456")
                   (of_string "abandon abandon abandon abandon abandon abandon abandon abandon abandon abandon abandon about")
                   "bsc"
                   {| id := 56; name := "BNB Smart Chain"; symbol := "BNB";
                      rpcUrl := "https://bsc-dataseed.binance.org";
                      explorerUrl := "https://bscscan.com";
                      iconColor := "#F0B90B"; decimals := 18; isTestnet := None |}
                   _ _)) _ _).
  - vm_compute. reflexivity.
  - vm_compute. reflexivity.
  - vm_compute. reflexivity.
Defined.

(** C10. [generateWallet] asks for 128 bits: given 16 random bytes, the
    phrase it generates has twelve words, all from the word list, decodes
    back to those 16 bytes, and is accepted by [validateMnemonic]; the
    wallet returned is that phrase with the address derived from it. *)
Theorem generateWallet_valid_mnemonic `{ethers.Crypto} `{bip39.Params}
    {laws : bip39.ParamsLaws} (rng : nat -> list Z) (d : Device) :
  length (rng 16%nat) = 16%nat -> Forall latin1 (rng 16%nat) ->
  exists mnemonic,
    bip39.generateMnemonic 128 rng = Ok mnemonic /\
    length (bip39.split_space mnemonic) = 12%nat /\
    Forall (fun w => w ∈ bip39.wordlist) (bip39.split_space mnemonic) /\
    bip39.mnemonicToEntropy mnemonic = Ok (rng 16%nat) /\
    bip39.validateMnemonic mnemonic = true /\
    generateWallet rng d =
      (match ethers.derive_scalar mnemonic DERIVATION_PATH with
       | Ok k => Ok (mnemonic, ethers.computeAddress k)
       | Throw e => Throw e
       end, d).
Proof.
  intros Hlen Hbytes.
  destruct (generateMnemonic_128 rng Hlen Hbytes)
    as (mnemonic & Hgen & Hwords & Hin & Hdec & Hvalid).
  exists mnemonic. repeat (split; [assumption|]).
  unfold generateWallet, await, lift. rewrite Hgen, deriveAddress_eq.
  destruct (ethers.derive_scalar mnemonic DERIVATION_PATH); reflexivity.
Qed.

Lemma generateWallet_valid_mnemonic_witness :
  exists mnemonic,
    @bip39.generateMnemonic fixture_bip39 128 fixture_rng = Ok mnemonic /\
    length (bip39.split_space mnemonic) = 12%nat /\
    Forall (fun w => w ∈ @bip39.wordlist fixture_bip39) (bip39.split_space mnemonic) /\
    @bip39.mnemonicToEntropy fixture_bip39 mnemonic = Ok (fixture_rng 16%nat) /\
    @bip39.validateMnemonic fixture_bip39 mnemonic = true /\
    @generateWallet fixture_crypto fixture_bip39 fixture_rng fixture_device =
      (match @ethers.derive_scalar fixture_crypto mnemonic DERIVATION_PATH with
       | Ok k => Ok (mnemonic, @ethers.computeAddress fixture_crypto k)
       | Throw e => Throw e
       end, fixture_device).
Proof.
  apply (@generateWallet_valid_mnemonic fixture_crypto fixture_bip39 fixture_bip39_laws).
  - reflexivity.
  - apply latin1_check. reflexivity.
Defined.

(** * Further properties of the wallet core *)

(** ** The PIN cipher beyond the round trip *)

Lemma land_lxor_distr a b c : Z.land (Z.lxor a b) c = Z.lxor (Z.land a c) (Z.land b c).
Proof.
  apply Z.bits_inj'. intros n Hn.
  rewrite Z.land_spec, !Z.lxor_spec, !Z.land_spec.
  destruct (Z.testbit a n), (Z.testbit b n), (Z.testbit c n); reflexivity.
Qed.

Lemma low_byte_of_xor a k :
  latin1 k -> Z.land (fromCharCode (Z.lxor a k)) 255 = Z.lxor (Z.land a 255) k.
Proof.
  intros Hk. unfold fromCharCode.
  rewrite <- Z.land_assoc. change (Z.land 65535 255) with 255.
  rewrite land_lxor_distr. now rewrite (land_255_latin1 k Hk).
Qed.

Lemma from_binary_xor_low (m key : list Z) :
  Forall latin1 key ->
  Buffer.from_binary (zip_with (fun a k => fromCharCode (Z.lxor a k)) m key)
  = zip_with Z.lxor (map (fun c => Z.land c 255) m) key.
Proof.
  intros Hkey. revert m. induction Hkey as [|k key Hk _ IH]; intros [|a m];
    try reflexivity.
  unfold Buffer.from_binary in *. cbn [zip_with map].
  now rewrite low_byte_of_xor, IH.
Qed.

Lemma map_low_byte_latin1 (m : list Z) :
  Forall latin1 m -> map (fun c => Z.land c 255) m = m.
Proof.
  induction 1 as [|a m Ha _ IH]; [reflexivity|].
  cbn [map]. now rewrite land_255_latin1, IH.
Qed.

(** The blob depends on the text only through the low byte of each of its
    code units. *)
Lemma encryptWithPin_low_bytes (m pin : list Z) :
  Forall latin1 pin -> pin <> [] ->
  encryptWithPin m pin = encryptWithPin (map (fun c => Z.land c 255) m) pin.
Proof.
  intros Hpin Hne.
  destruct (pin_key_nonempty m pin Hne) as (key & Hkey & Hlen & Hall).
  pose proof (Hall latin1 Hpin) as Hkl.
  unfold encryptWithPin.
  rewrite <- (pin_key_length_only m (map (fun c => Z.land c 255) m) pin)
    by now rewrite length_map.
  rewrite Hkey. cbn [JS.bind].
  rewrite !xor_loop_zip by (rewrite ?length_map; assumption).
  rewrite !from_binary_xor_low by assumption.
  rewrite map_map.
  f_equal. f_equal. f_equal. clear. induction m as [|a m IH]; [reflexivity|].
  cbn [map]. rewrite IH. f_equal.
  rewrite <- Z.land_assoc. reflexivity.
Qed.

(** X1. Whatever the phrase, under a nonempty PIN of code units below 256
    the phrase read back is the phrase with every code unit reduced to its
    low byte: code units above 255 do not survive. *)
Theorem encrypt_decrypt_keeps_low_bytes (m pin : jsstring) :
  Forall latin1 pin -> pin <> [] ->
  exists blob,
    encryptWithPin m pin = Ok blob /\
    decryptWithPin blob pin = Ok (map (fun c => Z.land c 255) m).
Proof.
  intros Hpin Hne.
  rewrite (encryptWithPin_low_bytes m pin Hpin Hne).
  apply encrypt_decrypt_latin1; [|assumption..].
  apply Forall_map, Forall_forall. intros c _. apply land_255_is_latin1.
Qed.

Lemma encrypt_decrypt_keeps_low_bytes_witness :
  exists blob,
    encryptWithPin [26085; 26412] (of_string "123456") = Ok blob /\
    decryptWithPin blob (of_string "123456") = Ok [229; 44].
Proof.
  apply (encrypt_decrypt_keeps_low_bytes [26085; 26412] (of_string "123456")).
  - apply latin1_check. reflexivity.
  - discriminate.
Defined.

(** The key stream starts with the PIN. *)
Lemma pin_key_prefix text pin key :
  pin <> [] -> (length pin <= length text)%nat ->
  pin_key text pin = Ok key -> take (length pin) key = pin.
Proof.
  intros Hne Hle Hkey.
  destruct pin as [|c pin]; [congruence|].
  destruct text as [|t text]; [simpl in Hle; lia|].
  set (p := c :: pin) in *.
  set (b := Z.of_nat (length p)).
  set (q := (Z.of_nat (length (t :: text)) + b - 1) / b).
  assert (Hceil : Math_ceil_div (length (t :: text)) (length p) = Finite q) by reflexivity.
  assert (Hb : 0 < b) by (subst b p; simpl; lia).
  assert (Hq : 1 <= q).
  { subst q. apply Z.div_le_lower_bound; [lia|]. simpl length. lia. }
  unfold pin_key, JS.repeat, slice0 in Hkey. rewrite Hceil in Hkey.
  destruct (q <? 0) eqn:Eq; [lia|]. cbn [JS.bind] in Hkey. injection Hkey as <-.
  destruct (Z.to_nat q) as [|q'] eqn:Eqn; [lia|].
  cbn [replicate concat].
  rewrite take_take, Nat.min_l by exact Hle.
  now rewrite take_app_length.
Qed.

Lemma zip_lxor_latin1 (m key : list Z) :
  Forall latin1 m -> Forall latin1 key -> Forall latin1 (zip_with Z.lxor m key).
Proof.
  intros Hm. revert key. induction Hm as [|a m Ha _ IH]; intros [|k key] Hkey;
    cbn [zip_with]; try constructor.
  - apply Forall_cons in Hkey as [Hk _]. now apply lxor_latin1.
  - apply Forall_cons in Hkey as [_ Hkey]. now apply IH.
Qed.

Lemma zip_fromCharCode_latin1 (m key : list Z) :
  Forall latin1 m -> Forall latin1 key ->
  zip_with (fun a k => fromCharCode (Z.lxor a k)) m key = zip_with Z.lxor m key.
Proof.
  intros Hm. revert key. induction Hm as [|a m Ha _ IH]; intros [|k key] Hkey;
    cbn [zip_with]; try reflexivity.
  apply Forall_cons in Hkey as [Hk Hkey].
  rewrite IH by assumption. f_equal.
  apply fromCharCode_code_unit, latin1_code_unit. now apply lxor_latin1.
Qed.

(** What decryption under a second PIN computes: the phrase XORed with both
    key streams. *)
Lemma decrypt_under_other_pin (m p1 p2 : list Z) :
  Forall latin1 m -> Forall latin1 p1 -> Forall latin1 p2 -> p1 <> [] -> p2 <> [] ->
  exists k1 k2 blob,
    pin_key m p1 = Ok k1 /\ pin_key m p2 = Ok k2 /\
    length k1 = length m /\ length k2 = length m /\
    encryptWithPin m p1 = Ok blob /\
    Buffer.from_base64 blob = zip_with Z.lxor m k1 /\
    decryptWithPin blob p2 = Ok (zip_with Z.lxor (zip_with Z.lxor m k1) k2).
Proof.
  intros Hm Hp1 Hp2 Hne1 Hne2.
  destruct (pin_key_nonempty m p1 Hne1) as (k1 & Hk1 & Hlen1 & Hall1).
  destruct (pin_key_nonempty m p2 Hne2) as (k2 & Hk2 & Hlen2 & Hall2).
  pose proof (Hall1 latin1 Hp1) as Hk1l. pose proof (Hall2 latin1 Hp2) as Hk2l.
  exists k1, k2. eexists. repeat (split; [eassumption|]).
  assert (Hbytes : Buffer.from_binary (xor_loop m k1) = zip_with Z.lxor m k1).
  { rewrite xor_loop_zip by assumption.
    rewrite from_binary_xor_low by assumption. now rewrite map_low_byte_latin1. }
  assert (Hbl : Forall latin1 (zip_with Z.lxor m k1)) by now apply zip_lxor_latin1.
  assert (Hblen : length (zip_with Z.lxor m k1) = length m).
  { rewrite length_zip_with. lia. }
  unfold encryptWithPin. rewrite Hk1. cbn [JS.bind]. rewrite Hbytes.
  split; [reflexivity|].
  rewrite from_base64_toString_base64 by assumption.
  split; [reflexivity|].
  unfold decryptWithPin, Buffer.toString_binary.
  rewrite from_base64_toString_base64 by assumption.
  rewrite (pin_key_length_only _ m p2 Hblen), Hk2. cbn [JS.bind].
  rewrite xor_loop_zip by lia.
  now rewrite zip_fromCharCode_latin1.
Qed.

Lemma zip_lxor_twice_same (m k1 k2 : list Z) :
  length k1 = length m -> length k2 = length m ->
  zip_with Z.lxor (zip_with Z.lxor m k1) k2 = m -> k1 = k2.
Proof.
  revert k1 k2. induction m as [|a m IH]; intros [|c1 k1] [|c2 k2] H1 H2 Heq;
    simpl in H1, H2; try discriminate; [reflexivity|].
  cbn [zip_with] in Heq. injection Heq as Hhd Htl.
  f_equal; [now apply (lxor_lxor_same a) | apply IH; [lia | lia | exact Htl]].
Qed.

(** X2. Among PINs of one length that is at most the phrase's, only the PIN
    used at save time gives the phrase back: decryption under any other such
    PIN succeeds with a different string. *)
Theorem decrypt_gives_phrase_iff_same_pin (m p1 p2 : jsstring) :
  Forall latin1 m -> Forall latin1 p1 -> Forall latin1 p2 ->
  p1 <> [] -> length p1 = length p2 -> (length p1 <= length m)%nat ->
  exists blob s,
    encryptWithPin m p1 = Ok blob /\ decryptWithPin blob p2 = Ok s /\
    (s = m <-> p2 = p1).
Proof.
  intros Hm Hp1 Hp2 Hne1 Hlen Hle.
  assert (Hne2 : p2 <> []) by (intros ->; destruct p1; [congruence | discriminate]).
  destruct (decrypt_under_other_pin m p1 p2 Hm Hp1 Hp2 Hne1 Hne2)
    as (k1 & k2 & blob & Hk1 & Hk2 & Hl1 & Hl2 & Henc & _ & Hdec).
  exists blob. eexists. split; [exact Henc|]. split; [exact Hdec|]. split.
  - intros Heq. apply zip_lxor_twice_same in Heq; [|assumption..]. subst k2.
    rewrite <- (pin_key_prefix m p1 k1 Hne1 Hle Hk1).
    rewrite <- (pin_key_prefix m p2 k1 Hne2 ltac:(lia) Hk2).
    now rewrite Hlen.
  - intros ->. rewrite Hk1 in Hk2. injection Hk2 as <-.
    clear -Hl1. revert k1 Hl1. induction m as [|a m IH]; intros [|c k1] Hl1;
      simpl in Hl1; try discriminate; [reflexivity|].
    cbn [zip_with]. rewrite lxor_cancel. f_equal. apply IH. lia.
Qed.

Lemma decrypt_gives_phrase_iff_same_pin_witness :
  exists blob s,
    encryptWithPin (of_string "abandon about") (of_string "123456") = Ok blob /\
    decryptWithPin blob (of_string "123457") = Ok s /\
    (s = of_string "abandon about" <-> of_string "123457" = of_string "123456").
Proof.
  apply decrypt_gives_phrase_iff_same_pin.
  - apply latin1_check. reflexivity.
  - apply latin1_check. reflexivity.
  - apply latin1_check. reflexivity.
  - discriminate.
  - reflexivity.
  - simpl. lia.
Defined.

(** X3. The stored blob and the phrase together give the PIN away: the XOR
    of the decoded blob with the phrase starts with the PIN. *)
Theorem blob_and_phrase_reveal_pin (m pin blob : jsstring) :
  Forall latin1 m -> Forall latin1 pin ->
  pin <> [] -> (length pin <= length m)%nat ->
  encryptWithPin m pin = Ok blob ->
  take (length pin) (zip_with Z.lxor (Buffer.from_base64 blob) m) = pin.
Proof.
  intros Hm Hpin Hne Hle Henc.
  destruct (decrypt_under_other_pin m pin pin Hm Hpin Hpin Hne Hne)
    as (k1 & _ & blob' & Hk1 & _ & Hl1 & _ & Henc' & Hbytes & _).
  rewrite Henc in Henc'. injection Henc' as <-. rewrite Hbytes.
  assert (Hkey : zip_with Z.lxor (zip_with Z.lxor m k1) m = k1).
  { clear -Hl1. revert k1 Hl1. induction m as [|a m IH]; intros [|c k1] Hl1;
      simpl in Hl1; try discriminate; [reflexivity|].
    cbn [zip_with]. rewrite IH by lia. f_equal.
    rewrite (Z.lxor_comm a c). apply lxor_cancel. }
  rewrite Hkey. now apply (pin_key_prefix m).
Qed.

Lemma blob_and_phrase_reveal_pin_witness :
  take (length (of_string "123456"))
       (zip_with Z.lxor (Buffer.from_base64 (of_string "UFBSWlFZXxJSVlpDRQ=="))
                 (of_string "abandon about"))
  = of_string "123456".
Proof.
  apply blob_and_phrase_reveal_pin.
  - apply latin1_check. reflexivity.
  - apply latin1_check. reflexivity.
  - discriminate.
  - simpl. lia.
  - reflexivity.
Defined.

(** ** Saving, loading and wiping *)

Lemma fixture_json_laws : @JSONLaws fixture_json.
Proof.
  constructor.
  - intros [addr stamp flag]. cbn. f_equal. f_equal. now destruct flag.
  - intros meta. cbn. discriminate.
Qed.

Lemma pin_key_empty_pin (text : jsstring) :
  text <> [] -> pin_key text [] = Throw RangeError.
Proof. destruct text; [congruence | reflexivity]. Qed.

(** X4. The empty PIN: encrypting a nonempty phrase raises a range error, so
    [saveMnemonic] rejects and writes nothing; and a phrase saved under a
    real PIN is not loaded under the empty one, which raises the range error
    instead of the missing-wallet error. *)
Theorem empty_pin_raises_range_error (m : jsstring) (d : Device) :
  m <> [] ->
  encryptWithPin m [] = Throw RangeError /\
  saveMnemonic m [] d = (Throw RangeError, d) /\
  (forall pin d', pin <> [] -> saveMnemonic m pin d = (Ok tt, d') ->
                  loadMnemonic [] d' = (Throw RangeError, d')).
Proof.
  intros Hm.
  assert (Henc : encryptWithPin m [] = Throw RangeError).
  { unfold encryptWithPin. now rewrite pin_key_empty_pin. }
  split; [exact Henc|]. split.
  - unfold saveMnemonic, await, lift. now rewrite Henc.
  - intros pin d' Hpin Hsave.
    destruct (encryptWithPin_total m pin Hpin) as (blob & Hblob).
    rewrite (saveMnemonic_stores m pin blob d Hblob) in Hsave.
    injection Hsave as <-.
    rewrite (loadMnemonic_stored _ _ _ (lookup_insert_eq _ _ _)). cbn [password].
    f_equal. unfold decryptWithPin, Buffer.toString_binary.
    rewrite pin_key_empty_pin; [reflexivity|].
    pose proof (encryptWithPin_blob_length m pin blob Hblob) as Hlen.
    intros Hnil. rewrite Hnil in Hlen. destruct m; [congruence | discriminate].
Qed.

Lemma empty_pin_raises_range_error_witness :
  encryptWithPin (of_string "abandon about") [] = Throw RangeError /\
  saveMnemonic (of_string "abandon about") [] fixture_device
  = (Throw RangeError, fixture_device).
Proof.
  refine ((fun H => conj (proj1 H) (proj1 (proj2 H)))
            (empty_pin_raises_range_error (of_string "abandon about") fixture_device _)).
  discriminate.
Defined.

(** X5. On any device, whatever it held before, a phrase saved under a PIN
    is loaded back under that PIN; saving writes the mnemonic service of the
    Keychain and nothing else. *)
Theorem saveMnemonic_then_loadMnemonic (m pin : jsstring) (d : Device) :
  Forall latin1 m -> Forall latin1 pin -> pin <> [] ->
  exists d',
    saveMnemonic m pin d = (Ok tt, d') /\
    loadMnemonic pin d' = (Ok m, d') /\
    encrypted_storage d' = encrypted_storage d /\
    (forall service, service <> MNEMONIC_SERVICE ->
                     keychain d' !! service = keychain d !! service).
Proof.
  intros Hm Hpin Hne.
  destruct (encrypt_decrypt_latin1 m pin Hm Hpin Hne) as (blob & Henc & Hdec).
  eexists. split; [apply (saveMnemonic_stores m pin blob d Henc)|].
  split; [|split].
  - rewrite (loadMnemonic_stored _ _ _ (lookup_insert_eq _ _ _)).
    cbn [password]. now rewrite Hdec.
  - reflexivity.
  - intros service Hs. cbn [keychain]. now rewrite lookup_insert_ne.
Qed.

Lemma saveMnemonic_then_loadMnemonic_witness :
  exists d',
    saveMnemonic (of_string "abandon about") (of_string "654321") fixture_device
    = (Ok tt, d') /\
    loadMnemonic (of_string "654321") d' = (Ok (of_string "abandon about"), d') /\
    encrypted_storage d' = encrypted_storage fixture_device /\
    (forall service, service <> MNEMONIC_SERVICE ->
                     keychain d' !! service = keychain fixture_device !! service).
Proof.
  apply saveMnemonic_then_loadMnemonic.
  - apply latin1_check. reflexivity.
  - apply latin1_check. reflexivity.
  - discriminate.
Defined.

Lemma loadWalletMeta_keeps_device `{JSON} (d : Device) :
  snd (loadWalletMeta d) = d.
Proof.
  unfold loadWalletMeta, await, EncryptedStorage.getItem, lift, resolve.
  destruct (encrypted_storage d !! WALLET_META_KEY) as [[|c raw]|]; try reflexivity.
  destruct (JSON_parse (c :: raw)); reflexivity.
Qed.

Lemma loadWalletMeta_stored `{JSON} (d : Device) (c : Z) (raw : jsstring) :
  encrypted_storage d !! WALLET_META_KEY = Some (c :: raw) ->
  loadWalletMeta d =
    (match JSON_parse (c :: raw) with
     | Ok meta => Ok (Some meta)
     | Throw e => Throw e
     end, d).
Proof.
  intros Hraw. unfold loadWalletMeta, await, EncryptedStorage.getItem, lift, resolve.
  rewrite Hraw. destruct (JSON_parse (c :: raw)); reflexivity.
Qed.

(** X6. The metadata saved is the metadata loaded, on any device; saving it
    writes the metadata key of the encrypted storage and nothing else, so
    the stored phrase is untouched. *)
Theorem saveWalletMeta_then_loadWalletMeta `{JSON} {laws : JSONLaws}
    (meta : WalletMeta) (d : Device) :
  exists d',
    saveWalletMeta meta d = (Ok tt, d') /\
    loadWalletMeta d' = (Ok (Some meta), d') /\
    keychain d' = keychain d /\
    (forall key, key <> WALLET_META_KEY ->
                 encrypted_storage d' !! key = encrypted_storage d !! key).
Proof.
  eexists. split; [reflexivity|]. split; [|split].
  - pose proof (JSON_stringify_nonempty meta) as Hne.
    pose proof (JSON_parse_stringify meta) as Hps.
    destruct (JSON_stringify meta) as [|c raw]; [congruence|].
    rewrite (loadWalletMeta_stored _ c raw (lookup_insert_eq _ _ _)).
    now rewrite Hps.
  - reflexivity.
  - intros key Hk. cbn [encrypted_storage]. now rewrite lookup_insert_ne.
Qed.

Lemma saveWalletMeta_then_loadWalletMeta_witness :
  exists d',
    @saveWalletMeta fixture_json fixture_meta fixture_device = (Ok tt, d') /\
    @loadWalletMeta fixture_json d' = (Ok (Some fixture_meta), d') /\
    keychain d' = keychain fixture_device /\
    (forall key, key <> WALLET_META_KEY ->
                 encrypted_storage d' !! key = encrypted_storage fixture_device !! key).
Proof.
  exact (@saveWalletMeta_then_loadWalletMeta fixture_json fixture_json_laws
           fixture_meta fixture_device).
Defined.

Lemma device_eq (d1 d2 : Device) :
  keychain d1 = keychain d2 -> encrypted_storage d1 = encrypted_storage d2 -> d1 = d2.
Proof. destruct d1, d2. simpl. now intros -> ->. Qed.

(** X7. Wiping removes what set-up wrote.  When the phrase can be saved,
    which is when the PIN is nonempty or the phrase is empty, saving a
    phrase and the metadata and then deleting the wallet leaves the device
    as deleting alone would; with the empty PIN and a nonempty phrase the
    sequence rejects with the range error of [saveMnemonic] and the device is
    left as it was, nothing saved and nothing wiped.  Deleting leaves a
    device that held neither entry as it is, and deleting twice is deleting
    once. *)
Theorem deleteWallet_undoes_setup `{JSON} (m pin : jsstring) (meta : WalletMeta)
    (d : Device) :
  (pin <> [] \/ m = [] ->
   (_ <~ saveMnemonic m pin ;; _ <~ saveWalletMeta meta ;; deleteWallet) d
   = (Ok tt, snd (deleteWallet d))) /\
  (pin = [] -> m <> [] ->
   (_ <~ saveMnemonic m pin ;; _ <~ saveWalletMeta meta ;; deleteWallet) d
   = (Throw RangeError, d)) /\
  (keychain d !! MNEMONIC_SERVICE = None ->
   encrypted_storage d !! WALLET_META_KEY = None ->
   snd (deleteWallet d) = d) /\
  deleteWallet (snd (deleteWallet d)) = (Ok tt, snd (deleteWallet d)).
Proof.
  split; [|split; [|split]].
  - intros Hsave.
    assert (exists blob, encryptWithPin m pin = Ok blob) as (blob & Hblob).
    { destruct pin as [|c pin].
      - destruct Hsave as [Hpin | ->]; [congruence|]. eexists. reflexivity.
      - apply encryptWithPin_total. discriminate. }
    unfold await at 1. rewrite (saveMnemonic_stores m pin blob d Hblob).
    unfold await, saveWalletMeta, deleteWallet, await, EncryptedStorage.setItem,
      Keychain.resetGenericPassword, EncryptedStorage.removeItem.
    cbn [keychain encrypted_storage snd]. f_equal.
    apply device_eq; cbn [keychain encrypted_storage]; apply delete_insert_eq.
  - intros -> Hm. unfold await at 1.
    assert (Hsave : saveMnemonic m [] d = (Throw RangeError, d)).
    { unfold saveMnemonic, await, lift, encryptWithPin.
      now rewrite (pin_key_empty_pin m Hm). }
    now rewrite Hsave.
  - intros Hk Hs. unfold deleteWallet, await, Keychain.resetGenericPassword,
      EncryptedStorage.removeItem. cbn [keychain encrypted_storage snd].
    apply device_eq; cbn [keychain encrypted_storage]; now apply delete_id.
  - unfold deleteWallet, await, Keychain.resetGenericPassword,
      EncryptedStorage.removeItem. cbn [keychain encrypted_storage snd]. f_equal.
    apply device_eq; cbn [keychain encrypted_storage]; apply delete_delete_eq.
Qed.

Lemma deleteWallet_undoes_setup_witness :
  (_ <~ saveMnemonic (of_string "abandon about") (of_string "123456") ;;
   _ <~ @saveWalletMeta fixture_json fixture_meta ;; deleteWallet) fixture_device
  = (Ok tt, snd (deleteWallet fixture_device)) /\
  (_ <~ saveMnemonic (of_string "abandon about") [] ;;
   _ <~ @saveWalletMeta fixture_json fixture_meta ;; deleteWallet) fixture_device
  = (Throw RangeError, fixture_device).
Proof.
  split.
  - refine (proj1 (@deleteWallet_undoes_setup fixture_json (of_string "abandon about")
                     (of_string "123456") fixture_meta fixture_device) _).
    left. discriminate.
  - refine (proj1 (proj2 (@deleteWallet_undoes_setup fixture_json
                            (of_string "abandon about") [] fixture_meta fixture_device))
              _ _).
    + reflexivity.
    + discriminate.
Defined.

(** ** The signer: failures, provider, and the saved phrase *)

Lemma Object_prototype_keys_not_configured (k : string) :
  k ∈ Object_prototype_keys -> CHAINS !! k = None.
Proof.
  unfold Object_prototype_keys. intros Hk.
  repeat (apply elem_of_cons in Hk as [-> | Hk]; [reflexivity|]).
  now apply elem_of_nil in Hk.
Qed.

Lemma CHAINS_rpcUrl_inherited (k : string) :
  k ∈ Object_prototype_keys -> CHAINS_rpcUrl k = Ok None.
Proof.
  intros Hk. unfold CHAINS_rpcUrl.
  rewrite (Object_prototype_keys_not_configured k Hk).
  now rewrite decide_True.
Qed.

Lemma CHAINS_rpcUrl_undefined (k : string) :
  CHAINS !! k = None -> k ∉ Object_prototype_keys -> CHAINS_rpcUrl k = Throw TypeError.
Proof. intros Hk Hp. unfold CHAINS_rpcUrl. rewrite Hk. now rewrite decide_False. Qed.

(** With the phrase loaded, [getSigner] is the signer of the derived key on
    the provider of the chain key's URL. *)
Lemma getSigner_loaded `{ethers.Crypto} (chainKey : string) (pin mnemonic : jsstring)
    (d : Device) :
  loadMnemonic pin d = (Ok mnemonic, d) ->
  getSigner chainKey pin d
  = (url <- CHAINS_rpcUrl chainKey ;;
     hdNode <- ethers.HDNodeWallet.fromPhrase mnemonic DERIVATION_PATH ;;
     ethers.Wallet.new (ethers.HDNodeWallet.privateKey hdNode)
                       (Some (ethers.new_JsonRpcProvider url)), d).
Proof.
  intros Hload. unfold getSigner, await. rewrite Hload. unfold lift.
  destruct (CHAINS_rpcUrl chainKey) as [url|e]; [|reflexivity].
  cbn [JS.bind].
  destruct (ethers.HDNodeWallet.fromPhrase mnemonic DERIVATION_PATH); reflexivity.
Qed.

(** X8. [getSigner] never writes the device.  Without a stored wallet it
    rejects with the missing-wallet error whatever the chain key.  With one
    (and a nonempty PIN), a chain key that is neither configured nor a
    property name inherited from [Object.prototype] is a type error, as in
    [getProvider].  An inherited name such as toString is not: it has no
    [rpcUrl], so [getProvider] gives the provider of the default endpoint
    and [getSigner] gives the signer of the derived key on that provider.
    In every case a signer that is returned carries the provider
    [getProvider] gives for the chain key. *)
Theorem getSigner_failures_and_provider `{ethers.Crypto}
    (chainKey : string) (pin : jsstring) (d : Device) :
  snd (getSigner chainKey pin d) = d /\
  (keychain d !! MNEMONIC_SERVICE = None ->
   getSigner chainKey pin d = (Throw NoWalletStored, d)) /\
  (forall c, keychain d !! MNEMONIC_SERVICE = Some c -> pin <> [] ->
             CHAINS !! chainKey = None -> chainKey ∉ Object_prototype_keys ->
             getSigner chainKey pin d = (Throw TypeError, d) /\
             getProvider chainKey = Throw TypeError) /\
  (chainKey ∈ Object_prototype_keys ->
   CHAINS !! chainKey = None /\
   getProvider chainKey = Ok ethers.JsonRpcProvider_default /\
   (forall mnemonic k,
       loadMnemonic pin d = (Ok mnemonic, d) ->
       ethers.derive_scalar mnemonic DERIVATION_PATH = Ok k ->
       0 < k < ethers.secp256k1_n ->
       getSigner chainKey pin d
       = (Ok {| ethers.Wallet.privateKey := ethers.hexlify32 k;
                ethers.Wallet.address := ethers.computeAddress k;
                ethers.Wallet.provider := Some ethers.JsonRpcProvider_default |}, d))) /\
  (forall signer, fst (getSigner chainKey pin d) = Ok signer ->
     exists p, getProvider chainKey = Ok p /\ ethers.Wallet.provider signer = Some p).
Proof.
  split; [|split; [|split; [|split]]].
  - unfold getSigner, await.
    destruct (loadMnemonic pin d) as [[m|e] d'] eqn:Hload;
      pose proof (loadMnemonic_keeps_device _ _ _ _ Hload) as ->; [|reflexivity].
    unfold lift. destruct (CHAINS_rpcUrl chainKey) as [url|e]; [|reflexivity].
    destruct (ethers.HDNodeWallet.fromPhrase m DERIVATION_PATH) as [hd|e]; [|reflexivity].
    reflexivity.
  - intros Hc. unfold getSigner, await. now rewrite (loadMnemonic_absent pin d Hc).
  - intros c Hc Hpin Hchain Hproto.
    destruct (decryptWithPin_total (password c) pin Hpin) as (m & Hm).
    assert (Hload : loadMnemonic pin d = (Ok m, d)).
    { rewrite (loadMnemonic_stored pin d c Hc). now rewrite Hm. }
    rewrite (getSigner_loaded chainKey pin m d Hload). unfold getProvider.
    rewrite (CHAINS_rpcUrl_undefined chainKey Hchain Hproto). split; reflexivity.
  - intros Hproto. split; [now apply Object_prototype_keys_not_configured|].
    split.
    + unfold getProvider. now rewrite (CHAINS_rpcUrl_inherited chainKey Hproto).
    + intros m k Hload Hk Hrange.
      rewrite (getSigner_loaded chainKey pin m d Hload).
      rewrite (CHAINS_rpcUrl_inherited chainKey Hproto).
      unfold ethers.HDNodeWallet.fromPhrase. rewrite Hk.
      cbn [JS.bind ethers.HDNodeWallet.privateKey ethers.new_JsonRpcProvider].
      unfold ethers.Wallet.new. now rewrite (private_scalar_hexlify32 k Hrange).
  - intros signer Hs. unfold getProvider.
    destruct (loadMnemonic pin d) as [[m|e] d'] eqn:Hload;
      pose proof (loadMnemonic_keeps_device _ _ _ _ Hload) as ->.
    + rewrite (getSigner_loaded chainKey pin m d Hload) in Hs. cbn [fst] in Hs.
      destruct (CHAINS_rpcUrl chainKey) as [url|e]; [|discriminate].
      cbn [JS.bind] in *.
      destruct (ethers.HDNodeWallet.fromPhrase m DERIVATION_PATH) as [hd|e];
        [|discriminate].
      cbn [JS.bind] in Hs. unfold ethers.Wallet.new in Hs.
      destruct (ethers.private_scalar (ethers.HDNodeWallet.privateKey hd));
        [|discriminate].
      injection Hs as <-. eexists. split; reflexivity.
    + unfold getSigner, await in Hs. rewrite Hload in Hs. discriminate.
Qed.

Lemma getSigner_failures_and_provider_witness :
  @getSigner fixture_crypto "solana" (of_string "123456") empty_device
  = (Throw NoWalletStored, empty_device) /\
  (@getSigner fixture_crypto "solana" (of_string "123456") fixture_device
   = (Throw TypeError, fixture_device) /\
   getProvider "solana" = Throw TypeError) /\
  @getSigner fixture_crypto "toString" (of_string "123456") fixture_device
  = (Ok {| ethers.Wallet.privateKey := ethers.hexlify32 1;
           ethers.Wallet.address := @ethers.computeAddress fixture_crypto 1;
           ethers.Wallet.provider := Some ethers.JsonRpcProvider_default |},
     fixture_device).
Proof.
  split; [|split].
  - refine (proj1 (proj2 (@getSigner_failures_and_provider fixture_crypto
                            "solana" (of_string "123456") empty_device)) _).
    reflexivity.
  - eapply (proj1 (proj2 (proj2 (@getSigner_failures_and_provider fixture_crypto
                            "solana" (of_string "123456") fixture_device)))).
    + vm_compute. reflexivity.
    + discriminate.
    + vm_compute. reflexivity.
    + unfold Object_prototype_keys. intros Hk.
      repeat (apply elem_of_cons in Hk as [Hk | Hk]; [discriminate|]).
      now apply elem_of_nil in Hk.
  - refine (proj2 (proj2 (proj1 (proj2 (proj2 (proj2
              (@getSigner_failures_and_provider fixture_crypto
                 "toString" (of_string "123456") fixture_device)))) _))
              (of_string "abandon abandon abandon abandon abandon abandon abandon abandon abandon abandon abandon about")
              1 _ _ _).
    + unfold Object_prototype_keys. do 5 (apply elem_of_cons; right).
      apply elem_of_cons. left. reflexivity.
    + vm_compute. reflexivity.
    + reflexivity.
    + vm_compute. split; reflexivity.
Defined.

(** X9. From set-up to signing: once a phrase is saved under a PIN, that PIN
    unlocks the screen, and the signer of every configured chain has the
    address that [deriveAddress] gives for the phrase. *)
Theorem saved_phrase_signs_with_its_address `{ethers.Crypto} {laws : ethers.CryptoLaws}
    (m pin a : jsstring) (d : Device) (chainKey : string) (chain : Chain) :
  Forall latin1 m -> Forall latin1 pin -> pin <> [] ->
  CHAINS !! chainKey = Some chain ->
  deriveAddress m d = (Ok a, d) ->
  exists d' signer,
    saveMnemonic m pin d = (Ok tt, d') /\
    getSigner chainKey pin d' = (Ok signer, d') /\
    ethers.Wallet.address signer = a /\
    ethers.Wallet.provider signer = Some (ethers.JsonRpcProvider (rpcUrl chain)) /\
    UnlockScreen.isUnlocked
      (UnlockScreen.tryUnlock pin (UnlockScreen.initial d')) = true.
Proof.
  intros Hm Hpin Hne Hchain Ha.
  destruct (encrypt_decrypt_latin1 m pin Hm Hpin Hne) as (blob & Henc & Hdec).
  pose proof (saveMnemonic_stores m pin blob d Henc) as Hsave.
  set (d' := {| keychain := <[MNEMONIC_SERVICE :=
                               {| username := MNEMONIC_SERVICE; password := blob |}]>
                             (keychain d);
                encrypted_storage := encrypted_storage d |}) in *.
  assert (Hload : loadMnemonic pin d' = (Ok m, d')).
  { rewrite (loadMnemonic_stored pin d' _ (lookup_insert_eq _ _ _)).
    cbn [password]. now rewrite Hdec. }
  rewrite deriveAddress_eq in Ha.
  pose proof (getSigner_eq chainKey chain pin m d' Hload Hchain) as Hsigner.
  destruct (ethers.derive_scalar m DERIVATION_PATH) as [k|e]; [|discriminate].
  injection Ha as <-.
  exists d'. eexists. split; [exact Hsave|]. split; [exact Hsigner|].
  split; [reflexivity|]. split; [reflexivity|].
  unfold UnlockScreen.tryUnlock. cbn [UnlockScreen.device UnlockScreen.initial].
  now rewrite Hload.
Qed.

Lemma saved_phrase_signs_with_its_address_witness :
  exists d' signer,
    saveMnemonic (of_string "abandon about") (of_string "123456") empty_device
    = (Ok tt, d') /\
    @getSigner fixture_crypto "polygon" (of_string "123456") d' = (Ok signer, d') /\
    ethers.Wallet.address signer = of_string "0x7E5F4552091A69125d5DfCb7b8C2659029395Bdf" /\
    ethers.Wallet.provider signer = Some (ethers.JsonRpcProvider "https://polygon-rpc.com") /\
    UnlockScreen.isUnlocked
      (UnlockScreen.tryUnlock (of_string "123456") (UnlockScreen.initial d')) = true.
Proof.
  refine (@saved_phrase_signs_with_its_address fixture_crypto fixture_crypto_laws
            (of_string "abandon about") (of_string "123456") _ empty_device "polygon"
            {| id := 137; name := "Polygon"; symbol := "MATIC";
               rpcUrl := "https://polygon-rpc.com";
               explorerUrl := "https://polygonscan.com";
               iconColor := "#8247E5"; decimals := 18; isTestnet := None |}
            _ _ _ _ _).
  - apply latin1_check. reflexivity.
  - apply latin1_check. reflexivity.
  - discriminate.
  - vm_compute. reflexivity.
  - reflexivity.
Defined.

(** ** The PIN pad of the unlock screen *)

Section UnlockPad.
Import UnlockScreen.

Lemma tryUnlock_cases (enteredPin : jsstring) (a : app) :
  (exists s, loadMnemonic enteredPin (device a) = (Ok s, device a) /\
             tryUnlock enteredPin a =
               {| device := device a; isUnlocked := true;
                  screen := {| pin := pin (screen a); loading := false;
                               attempts := attempts (screen a) |};
                  effects := effects a ++ [NavigateMain] |}) \/
  (exists e, loadMnemonic enteredPin (device a) = (Throw e, device a) /\
             tryUnlock enteredPin a =
               {| device := device a; isUnlocked := isUnlocked a;
                  screen := {| pin := []; loading := false;
                               attempts := S (attempts (screen a)) |};
                  effects := effects a ++
                    [Vibrate;
                     if (5 <=? S (attempts (screen a)))%nat then AlertTooManyAttempts
                     else AlertWrongPIN (5 - S (attempts (screen a)))] |}).
Proof.
  unfold tryUnlock.
  destruct (loadMnemonic enteredPin (device a)) as [r d'] eqn:Hload.
  pose proof (loadMnemonic_keeps_device _ _ _ _ Hload) as ->.
  destruct r as [s|e]; [left | right]; eexists; split; try reflexivity.
  now rewrite Nat.add_1_r.
Qed.

Lemma tryUnlock_monotone (enteredPin : jsstring) (a : app) :
  device (tryUnlock enteredPin a) = device a /\
  (isUnlocked a = true -> isUnlocked (tryUnlock enteredPin a) = true) /\
  (attempts (screen a) <= attempts (screen (tryUnlock enteredPin a))
   <= S (attempts (screen a)))%nat /\
  (exists more, effects (tryUnlock enteredPin a) = effects a ++ more) /\
  (length (pin (screen (tryUnlock enteredPin a))) <= length (pin (screen a)))%nat.
Proof.
  destruct (tryUnlock_cases enteredPin a) as [(s & _ & ->) | (e & _ & ->)];
    cbn [device isUnlocked screen attempts effects pin length];
    repeat split; eauto; lia.
Qed.

(** X10. Whatever key is pressed, the unlock screen never writes the device
    stores, never locks an unlocked wallet, never lowers the count of failed
    attempts (it raises it by at most one) and only adds to what it has
    shown. *)
Theorem handleKey_never_writes_or_locks (key : jsstring) (a : app) :
  device (handleKey key a) = device a /\
  (isUnlocked a = true -> isUnlocked (handleKey key a) = true) /\
  (attempts (screen a) <= attempts (screen (handleKey key a))
   <= S (attempts (screen a)))%nat /\
  (exists more, effects (handleKey key a) = effects a ++ more).
Proof.
  assert (Hid : device a = device a /\ (isUnlocked a = true -> isUnlocked a = true) /\
                (attempts (screen a) <= attempts (screen a) <= S (attempts (screen a)))%nat /\
                (exists more, effects a = effects a ++ more)).
  { repeat split; try lia; auto. exists []. now rewrite app_nil_r. }
  unfold handleKey.
  destruct (loading (screen a)); [exact Hid|].
  destruct (decide (key = BACKSPACE)); [exact Hid|].
  destruct (PIN_LENGTH <=? length (pin (screen a)))%nat; [exact Hid|].
  destruct (length (pin (screen a) ++ key) =? PIN_LENGTH)%nat; [|exact Hid].
  destruct (tryUnlock_monotone (pin (screen a) ++ key) (setPin (pin (screen a) ++ key) a))
    as (H1 & H2 & H3 & H4 & _).
  auto.
Qed.

(** X11. After [n] submissions on a device that holds no wallet the screen
    is still locked, the device untouched and the counter is [n]; every
    submission vibrated and raised one alert, the last of which announces
    [5 - n] remaining attempts while [n < 5] and too many attempts from the
    fifth on; and the PIN field is empty again. *)
Theorem failed_submissions_are_counted (n : nat) (enteredPin : jsstring) (d : Device) :
  keychain d !! MNEMONIC_SERVICE = None ->
  attempts (screen (Nat.iter n (tryUnlock enteredPin) (initial d))) = n /\
  isUnlocked (Nat.iter n (tryUnlock enteredPin) (initial d)) = false /\
  device (Nat.iter n (tryUnlock enteredPin) (initial d)) = d /\
  length (effects (Nat.iter n (tryUnlock enteredPin) (initial d))) = (2 * n)%nat /\
  ((1 <= n)%nat ->
   last (effects (Nat.iter n (tryUnlock enteredPin) (initial d)))
   = Some (if (5 <=? n)%nat then AlertTooManyAttempts else AlertWrongPIN (5 - n)) /\
   pin (screen (Nat.iter n (tryUnlock enteredPin) (initial d))) = []).
Proof.
  intros Hnone. induction n as [|n (IH1 & IH2 & IH3 & IH4 & _)].
  - cbn. repeat split. lia.
  - rewrite !Nat.iter_succ.
    set (a := Nat.iter n (tryUnlock enteredPin) (initial d)) in *.
    destruct (tryUnlock_cases enteredPin a) as [(s & Hload & _) | (e & _ & ->)].
    + rewrite IH3, (loadMnemonic_absent _ _ Hnone) in Hload. discriminate.
    + cbn [device isUnlocked screen attempts effects pin]. rewrite IH1.
      repeat split; try assumption.
      * rewrite length_app, IH4. simpl. lia.
      * change [Vibrate; if (5 <=? S n)%nat then AlertTooManyAttempts
                         else AlertWrongPIN (5 - S n)]
          with ([Vibrate] ++ [if (5 <=? S n)%nat then AlertTooManyAttempts
                              else AlertWrongPIN (5 - S n)]).
        rewrite app_assoc. apply last_snoc.
Qed.

Lemma failed_submissions_are_counted_witness :
  attempts (screen (Nat.iter 7 (tryUnlock (of_string "999999")) (initial empty_device)))
  = 7%nat /\
  isUnlocked (Nat.iter 7 (tryUnlock (of_string "999999")) (initial empty_device)) = false.
Proof.
  refine ((fun H => conj (proj1 H) (proj1 (proj2 H)))
            (failed_submissions_are_counted 7 (of_string "999999") empty_device _)).
  reflexivity.
Defined.

Lemma handleKey_char (c : Z) (a : app) :
  loading (screen a) = false -> c <> 9003 ->
  (length (pin (screen a)) < 5)%nat ->
  handleKey [c] a = setPin (pin (screen a) ++ [c]) a.
Proof.
  intros Hl Hc Hlen. unfold handleKey, PIN_LENGTH, BACKSPACE. rewrite Hl.
  rewrite decide_False by congruence.
  destruct (Nat.leb_spec 6 (length (pin (screen a)))); [lia|].
  rewrite length_app. cbn [length].
  destruct (Nat.eqb_spec (length (pin (screen a)) + 1) 6); [lia | reflexivity].
Qed.

Lemma handleKey_sixth (c : Z) (a : app) :
  loading (screen a) = false -> c <> 9003 ->
  length (pin (screen a)) = 5%nat ->
  handleKey [c] a = tryUnlock (pin (screen a) ++ [c]) (setPin (pin (screen a) ++ [c]) a).
Proof.
  intros Hl Hc Hlen. unfold handleKey, PIN_LENGTH, BACKSPACE. rewrite Hl.
  rewrite decide_False by congruence.
  rewrite length_app, Hlen. reflexivity.
Qed.

Lemma typed_prefix (cs : list Z) (d : Device) :
  (length cs <= 5)%nat -> Forall (fun c => c <> 9003) cs ->
  foldl (fun a c => handleKey [c] a) (initial d) cs = setPin cs (initial d).
Proof.
  induction cs as [|c cs IH] using rev_ind; intros Hlen Hall; [reflexivity|].
  rewrite length_app in Hlen. cbn [length] in Hlen.
  apply Forall_app in Hall as [Hall Hc]. apply Forall_cons in Hc as [Hc _].
  rewrite foldl_app. cbn [foldl]. rewrite IH by (assumption || lia).
  rewrite handleKey_char; cbn [screen setPin pin loading initial];
    [reflexivity | reflexivity | assumption | lia].
Qed.

(** X12. Six characters typed on a fresh screen, none of them the backspace
    key, amount to one submission of the six-character PIN; so on a device
    holding a wallet any six characters unlock, and on a device without one
    they count one failed attempt and clear the field. *)
Theorem typing_six_characters_submits (cs : list Z) (d : Device) :
  length cs = 6%nat -> Forall (fun c => c <> 9003) cs ->
  foldl (fun a c => handleKey [c] a) (initial d) cs
  = tryUnlock cs (setPin cs (initial d)) /\
  (forall c, keychain d !! MNEMONIC_SERVICE = Some c ->
     isUnlocked (foldl (fun a c => handleKey [c] a) (initial d) cs) = true) /\
  (keychain d !! MNEMONIC_SERVICE = None ->
     isUnlocked (foldl (fun a c => handleKey [c] a) (initial d) cs) = false /\
     attempts (screen (foldl (fun a c => handleKey [c] a) (initial d) cs)) = 1%nat /\
     pin (screen (foldl (fun a c => handleKey [c] a) (initial d) cs)) = []).
Proof.
  intros Hlen Hall.
  assert (Hfold : foldl (fun a c => handleKey [c] a) (initial d) cs
                  = tryUnlock cs (setPin cs (initial d))).
  { destruct cs as [|c cs] using rev_ind; [discriminate|]. clear IHcs.
    rewrite length_app in Hlen. cbn [length] in Hlen.
    apply Forall_app in Hall as [Hall Hc]. apply Forall_cons in Hc as [Hc _].
    rewrite foldl_app. cbn [foldl]. rewrite typed_prefix by (assumption || lia).
    rewrite handleKey_sixth; cbn [screen setPin pin loading initial];
      [reflexivity | reflexivity | assumption | lia]. }
  rewrite Hfold. split; [reflexivity|]. split.
  - intros c Hc.
    apply (tryUnlock_ignores_attempts (setPin cs (initial d)) cs c); [|exact Hc].
    intros ->. discriminate.
  - intros Hnone.
    destruct (tryUnlock_failure (setPin cs (initial d)) cs Hnone) as (H1 & H2 & H3).
    rewrite H1, H2, H3. repeat split.
Qed.

Lemma typing_six_characters_submits_witness :
  foldl (fun a c => handleKey [c] a) (initial fixture_device) (of_string "271828")
  = tryUnlock (of_string "271828") (setPin (of_string "271828") (initial fixture_device)).
Proof.
  refine (proj1 (typing_six_characters_submits (of_string "271828") fixture_device _ _)).
  - reflexivity.
  - repeat constructor; discriminate.
Defined.

Lemma setPin_same (a : app) : setPin (pin (screen a)) a = a.
Proof. destruct a as [d u [p l n] e]. reflexivity. Qed.

(** X13. The backspace key undoes the character typed before it, as long as
    that character did not complete the PIN; on an empty field it changes
    nothing. *)
Theorem backspace_undoes_last_character (c : Z) (a : app) :
  loading (screen a) = false ->
  (c <> 9003 -> (length (pin (screen a)) < 5)%nat ->
   handleKey BACKSPACE (handleKey [c] a) = a) /\
  (pin (screen a) = [] -> handleKey BACKSPACE a = a).
Proof.
  intros Hl. split.
  - intros Hc Hlen. rewrite handleKey_char by assumption.
    unfold handleKey. cbn [screen setPin loading pin]. rewrite Hl.
    rewrite decide_True by reflexivity.
    rewrite removelast_last.
    destruct a as [d u [p l n] e]. reflexivity.
  - intros Hp. unfold handleKey. rewrite Hl, decide_True by reflexivity.
    rewrite Hp. cbn [removelast]. rewrite <- Hp. apply setPin_same.
Qed.

Lemma backspace_undoes_last_character_witness :
  handleKey BACKSPACE (handleKey [55] (setPin (of_string "12") (initial fixture_device)))
  = setPin (of_string "12") (initial fixture_device).
Proof.
  refine (proj1 (backspace_undoes_last_character 55
                   (setPin (of_string "12") (initial fixture_device)) _) _ _).
  - reflexivity.
  - discriminate.
  - simpl. lia.
Defined.

(** X14. With one-character keys the PIN field never grows beyond six
    characters, and nothing is submitted (no alert, no change of the counter
    or of the lock) unless the key completes a sixth character on a screen
    that is not loading. *)
Theorem pin_field_bounded_and_submits_at_six (key : jsstring) (a : app) :
  length key = 1%nat ->
  ((length (pin (screen a)) <= 6)%nat ->
   (length (pin (screen (handleKey key a))) <= 6)%nat) /\
  (length (pin (screen a)) <> 5%nat \/ loading (screen a) = true \/ key = BACKSPACE ->
   effects (handleKey key a) = effects a /\
   attempts (screen (handleKey key a)) = attempts (screen a) /\
   isUnlocked (handleKey key a) = isUnlocked a).
Proof.
  intros Hkey. unfold handleKey, PIN_LENGTH.
  destruct (loading (screen a)) eqn:Hl; [split; auto|].
  destruct (decide (key = BACKSPACE)) as [Hb|Hb].
  { split; [|auto]. intros Hlen. cbn [screen setPin pin].
    pose proof (removelast_firstn_len (pin (screen a))) as Hrl.
    rewrite Hrl, length_take. lia. }
  destruct (Nat.leb_spec 6 (length (pin (screen a)))) as [Hge|Hlt].
  { split; auto. }
  rewrite length_app, Hkey.
  destruct (Nat.eqb_spec (length (pin (screen a)) + 1) 6) as [Hsix|Hnot].
  - split.
    + intros _.
      destruct (tryUnlock_monotone (pin (screen a) ++ key) (setPin (pin (screen a) ++ key) a))
        as (_ & _ & _ & _ & Hlen).
      cbn [screen setPin pin] in Hlen. rewrite length_app, Hkey in Hlen. lia.
    + intros [Hne | [Hload | Hbk]]; [lia | discriminate | contradiction].
  - split; [|auto]. intros _. cbn [screen setPin pin]. rewrite length_app, Hkey. lia.
Qed.

Lemma pin_field_bounded_and_submits_at_six_witness :
  (length (pin (screen (handleKey [49%Z] (initial fixture_device)))) <= 6)%nat.
Proof.
  refine (proj1 (pin_field_bounded_and_submits_at_six [49] (initial fixture_device) _) _).
  - reflexivity.
  - simpl. lia.
Defined.

End UnlockPad.

(** ** Importing and creating a wallet from the screens *)

Lemma trim_fixed (s : jsstring) :
  (forall c rest, s = c :: rest -> is_white_space c = false) ->
  (forall front c, s = front ++ [c] -> is_white_space c = false) ->
  trim s = s.
Proof.
  intros Hhd Hlast. unfold trim, trim_end.
  assert (Hstart : trim_start s = s).
  { destruct s as [|c rest]; [reflexivity|].
    cbn [trim_start]. now rewrite (Hhd c rest eq_refl). }
  rewrite Hstart.
  destruct s as [|c front _] using rev_ind; [reflexivity|].
  rewrite rev_app_distr. cbn [rev app trim_start].
  rewrite (Hlast front c eq_refl).
  change (c :: rev front) with (rev [c] ++ rev front).
  now rewrite <- rev_app_distr, rev_involutive.
Qed.

Lemma trim_idempotent (s : jsstring) : trim (trim s) = trim s.
Proof.
  destruct (trim_spec s) as (lead & trail & _ & _ & _ & Hhd & Hlast).
  now apply trim_fixed.
Qed.

Section ImportScreen.
Import ImportWalletScreen.
Context `{Engine}.

(** X15. [handleImport] shows exactly one alert or navigation and leaves the
    mode and the input as they were.  Input that is empty once trimmed only
    raises the empty-input alert: no import function runs.  Otherwise the
    function of the chosen mode runs on the trimmed input and the loading
    flag ends down; the screen navigates to SetPin exactly when that function
    fulfils, passing on the trimmed input under the parameter of the mode,
    never marked as new; when the function rejects, the alert shows the
    error's message, or the fallback text when the message is empty.  With
    the two functions of wallet.ts the device is never written. *)
Theorem handleImport_navigates_iff_import_fulfils
    (importKey importPhrase : jsstring -> async jsstring) (s : state) (d : Device) :
  (exists e, snd (fst (handleImport importKey importPhrase s d)) = [e]) /\
  usePrivateKey (fst (fst (handleImport importKey importPhrase s d))) = usePrivateKey s /\
  input (fst (fst (handleImport importKey importPhrase s d))) = input s /\
  (trim (input s) = [] ->
   handleImport importKey importPhrase s d = (s, [AlertEmptyInput], d)) /\
  (trim (input s) <> [] ->
   loading (fst (fst (handleImport importKey importPhrase s d))) = false /\
   snd (handleImport importKey importPhrase s d)
   = snd ((if usePrivateKey s then importKey else importPhrase) (trim (input s)) d) /\
   (forall a,
       fst ((if usePrivateKey s then importKey else importPhrase) (trim (input s)) d)
       = Ok a ->
       snd (fst (handleImport importKey importPhrase s d))
       = [NavigateSetPin
            (if usePrivateKey s
             then {| param_mnemonic := None; param_privateKey := Some (trim (input s));
                     isNew := false |}
             else {| param_mnemonic := Some (trim (input s)); param_privateKey := None;
                     isNew := false |})]) /\
   (forall e,
       fst ((if usePrivateKey s then importKey else importPhrase) (trim (input s)) d)
       = Throw e ->
       snd (fst (handleImport importKey importPhrase s d))
       = [AlertInvalidInput
            (message_or e "Could not import wallet. Please check your input.")])) /\
  (forall params,
      NavigateSetPin params ∈ snd (fst (handleImport importKey importPhrase s d)) ->
      trim (input s) <> [] /\
      isNew params = false /\
      (exists a,
          fst ((if usePrivateKey s then importKey else importPhrase) (trim (input s)) d)
          = Ok a) /\
      params = if usePrivateKey s
               then {| param_mnemonic := None; param_privateKey := Some (trim (input s));
                       isNew := false |}
               else {| param_mnemonic := Some (trim (input s)); param_privateKey := None;
                       isNew := false |}) /\
  (forall (C : ethers.Crypto) (P : bip39.Params),
      snd (handleImport importFromPrivateKey importFromMnemonic s d) = d).
Proof.
  assert (Hwallet : forall (C : ethers.Crypto) (P : bip39.Params),
             snd (handleImport importFromPrivateKey importFromMnemonic s d) = d).
  { intros C P. unfold handleImport.
    destruct (trim (input s)) as [|c l]; [reflexivity|].
    destruct (usePrivateKey s).
    - rewrite importFromPrivateKey_eq.
      destruct (ethers.private_scalar (trim (c :: l))); reflexivity.
    - unfold importFromMnemonic.
      destruct (bip39.validateMnemonic (trim (c :: l))); cbn [negb]; [|reflexivity].
      rewrite deriveAddress_eq.
      destruct (ethers.derive_scalar (trim (c :: l)) DERIVATION_PATH); reflexivity. }
  revert Hwallet.
  match goal with |- ?W -> _ => generalize W end.
  intros W Hwallet. unfold handleImport.
  destruct (trim (input s)) as [|c l] eqn:Htrim.
  { split; [eauto|]. do 2 (split; [reflexivity|]). split; [reflexivity|].
    split; [congruence|]. split; [|exact Hwallet].
    intros params Hin. apply list_elem_of_singleton in Hin. discriminate. }
  destruct (usePrivateKey s) eqn:Hu;
    [destruct (importKey (c :: l) d) as [[a|e] d'] eqn:Hi
    |destruct (importPhrase (c :: l) d) as [[a|e] d'] eqn:Hi];
    cbn [fst snd setLoading usePrivateKey input loading]; rewrite ?Hu;
    (split; [eauto|]); do 2 (split; [reflexivity|]); (split; [discriminate|]);
    (split; [intros _; split; [reflexivity|]; split; [reflexivity|];
             split; [intros a' Ha | intros e' He];
             first [discriminate | reflexivity | now injection He as <-]
           |]);
    (split; [|exact Hwallet]);
    intros params Hin; apply list_elem_of_singleton in Hin;
    first [discriminate | injection Hin as ->; repeat split; eauto; discriminate].
Qed.

End ImportScreen.

Lemma handleImport_navigates_iff_import_fulfils_witness :
  snd (fst (@ImportWalletScreen.handleImport fixture_engine
              (@importFromPrivateKey fixture_crypto)
              (@importFromMnemonic fixture_crypto fixture_bip39)
              {| ImportWalletScreen.usePrivateKey := true;
                 ImportWalletScreen.input :=
                   of_string "  0x0000000000000000000000000000000000000000000000000000000000000001 ";
                 ImportWalletScreen.loading := false |} fixture_device))
  = [ImportWalletScreen.NavigateSetPin
       {| param_mnemonic := None;
          param_privateKey :=
            Some (of_string "0x0000000000000000000000000000000000000000000000000000000000000001");
          isNew := false |}] /\
  snd (fst (@ImportWalletScreen.handleImport fixture_engine
              (@importFromPrivateKey fixture_crypto)
              (@importFromMnemonic fixture_crypto fixture_bip39)
              {| ImportWalletScreen.usePrivateKey := false;
                 ImportWalletScreen.input := of_string " not a phrase ";
                 ImportWalletScreen.loading := false |} fixture_device))
  = [ImportWalletScreen.AlertInvalidInput "Invalid mnemonic phrase"].
Proof.
  split.
  - refine (proj1 (proj2 (proj2 (proj1 (proj2 (proj2 (proj2 (proj2
              (@handleImport_navigates_iff_import_fulfils fixture_engine
                 (@importFromPrivateKey fixture_crypto)
                 (@importFromMnemonic fixture_crypto fixture_bip39)
                 {| ImportWalletScreen.usePrivateKey := true;
                    ImportWalletScreen.input :=
                      of_string "  0x0000000000000000000000000000000000000000000000000000000000000001 ";
                    ImportWalletScreen.loading := false |} fixture_device))))) _)))
              (@ethers.computeAddress fixture_crypto 1) _).
    + discriminate.
    + vm_compute. reflexivity.
  - refine (proj2 (proj2 (proj2 (proj1 (proj2 (proj2 (proj2 (proj2
              (@handleImport_navigates_iff_import_fulfils fixture_engine
                 (@importFromPrivateKey fixture_crypto)
                 (@importFromMnemonic fixture_crypto fixture_bip39)
                 {| ImportWalletScreen.usePrivateKey := false;
                    ImportWalletScreen.input := of_string " not a phrase ";
                    ImportWalletScreen.loading := false |} fixture_device))))) _)))
              InvalidMnemonic _).
    + discriminate.
    + vm_compute. reflexivity.
Defined.

Lemma split_space_nonempty (s : jsstring) : bip39.split_space s <> [].
Proof.
  induction s as [|c s IH]; cbn [bip39.split_space]; [discriminate|].
  destruct (c =? 32); [discriminate|].
  destruct (bip39.split_space s); discriminate.
Qed.

(** Joining the words of any string with single spaces gives the string
    back. *)
Lemma join_space_split_space (s : jsstring) :
  bip39.join_space (bip39.split_space s) = s.
Proof.
  induction s as [|c s IH]; [reflexivity|].
  cbn [bip39.split_space].
  pose proof (split_space_nonempty s) as Hne.
  destruct (bip39.split_space s) as [|w ws]; [congruence|].
  destruct (c =? 32) eqn:Hc.
  - apply Z.eqb_eq in Hc. subst c.
    unfold bip39.join_space in *. cbn [map concat app]. now rewrite IH.
  - unfold bip39.join_space in *. cbn [app]. now rewrite IH.
Qed.

Section CreateScreen.
Import CreateWalletScreen.
Context `{ethers.Crypto} `{bip39.Params}.

Lemma generateWallet_phrase (rng : nat -> list Z) (d d1 : Device) (m a : jsstring) :
  generateWallet rng d = (Ok (m, a), d1) -> bip39.generateMnemonic 128 rng = Ok m.
Proof.
  unfold generateWallet, await, lift.
  destruct (bip39.generateMnemonic 128 rng) as [m'|e]; [|discriminate].
  rewrite deriveAddress_eq.
  destruct (ethers.derive_scalar m' DERIVATION_PATH); [|discriminate].
  intros Heq. now injection Heq as -> _ _.
Qed.

(** X16. The screen keeps the generated phrase as a list of words and joins
    them again when it copies or proceeds: what reaches the clipboard and
    SetPin is the generated phrase, unchanged and marked as new, and with a
    sound random source it has twelve words and is accepted by
    [validateMnemonic].  When generation fails the screen raises its alert
    and keeps the words it had; from the initial screen, proceeding then
    passes on the empty phrase. *)
Theorem generated_phrase_reaches_SetPin (rng : nat -> list Z) (s : state) (d : Device) :
  (forall m a d1, generateWallet rng d = (Ok (m, a), d1) ->
     snd (generate rng s d) = d1 /\
     address (fst (fst (generate rng s d))) = a /\
     loading (fst (fst (generate rng s d))) = false /\
     copyToClipboard (fst (fst (generate rng s d))) = [ClipboardSetString m; AlertCopied] /\
     proceed (fst (fst (generate rng s d)))
     = [(if confirmed s then NavigateSetPin else AlertHaveYouBackedUp)
          {| param_mnemonic := Some m; param_privateKey := None; isNew := true |}] /\
     (forall laws : bip39.ParamsLaws,
        length (rng 16%nat) = 16%nat -> Forall latin1 (rng 16%nat) ->
        length (mnemonic (fst (fst (generate rng s d)))) = 12%nat /\
        bip39.validateMnemonic m = true)) /\
  (forall e d1, generateWallet rng d = (Throw e, d1) ->
     snd (fst (generate rng s d)) = [AlertGenerateFailed] /\
     mnemonic (fst (fst (generate rng s d))) = mnemonic s /\
     loading (fst (fst (generate rng s d))) = false /\
     proceed (fst (fst (generate rng initial d)))
     = [AlertHaveYouBackedUp
          {| param_mnemonic := Some []; param_privateKey := None; isNew := true |}]).
Proof.
  split.
  - intros m a d1 Hgen. pose proof (generateWallet_phrase rng d d1 m a Hgen) as Hm.
    unfold generate, copyToClipboard, proceed. rewrite Hgen.
    cbn [fst snd mnemonic address loading confirmed].
    rewrite join_space_split_space.
    do 4 (split; [reflexivity|]). split; [now destruct (confirmed s)|].
    intros laws Hlen Hbytes.
    destruct (generateMnemonic_128 rng Hlen Hbytes) as (m' & Hm' & Hwords & _ & _ & Hv).
    rewrite Hm in Hm'. injection Hm' as <-. auto.
  - intros e d1 Hgen. unfold generate, proceed. rewrite Hgen.
    cbn [fst snd mnemonic loading]. repeat split.
Qed.

End CreateScreen.

Lemma generated_phrase_reaches_SetPin_witness :
  CreateWalletScreen.proceed
    (fst (fst (@CreateWalletScreen.generate fixture_crypto fixture_bip39 fixture_rng
                 CreateWalletScreen.initial fixture_device)))
  = [CreateWalletScreen.AlertHaveYouBackedUp
       {| param_mnemonic := Some fixture_phrase; param_privateKey := None;
          isNew := true |}].
Proof.
  refine (proj1 (proj2 (proj2 (proj2 (proj2
            (proj1 (@generated_phrase_reaches_SetPin fixture_crypto fixture_bip39
                      fixture_rng CreateWalletScreen.initial fixture_device)
                   fixture_phrase
                   (of_string "0x7E5F4552091A69125d5DfCb7b8C2659029395Bdf")
                   fixture_device _)))))).
  vm_compute. reflexivity.
Defined.

(** ** The global store, the navigator and the settings screen *)

Section StoreFacts.
Import walletStore.
Context {TokenAsset Num : Type}.
Implicit Types s : @WalletState TokenAsset Num.

Lemma update_first_hashes (h : jsstring) (st : TxStatus) (txs : list Transaction) :
  map hash (update_first h st txs) = map hash txs.
Proof.
  induction txs as [|t txs IH]; [reflexivity|].
  cbn [update_first]. destruct (decide (hash t = h)); cbn [map]; [reflexivity|].
  now rewrite IH.
Qed.

Lemma update_first_no_match (h : jsstring) (st : TxStatus) (txs : list Transaction) :
  Forall (fun t => hash t <> h) txs -> update_first h st txs = txs.
Proof.
  induction 1 as [|t txs Ht _ IH]; [reflexivity|].
  cbn [update_first]. rewrite decide_False by assumption. now rewrite IH.
Qed.

Lemma update_first_split (h : jsstring) (st : TxStatus)
    (before after : list Transaction) (t : Transaction) :
  Forall (fun t' => hash t' <> h) before -> hash t = h ->
  update_first h st (before ++ t :: after) = before ++ with_status st t :: after.
Proof.
  intros Hbefore Ht. induction Hbefore as [|b before Hb _ IH].
  - cbn [app update_first]. now rewrite decide_True.
  - cbn [app update_first]. rewrite decide_False by assumption. now rewrite IH.
Qed.

Lemma setTransactions_same s : setTransactions (transactions s) s = s.
Proof. destruct s. reflexivity. Qed.

(** X17. [updateTxStatus] touches at most one transaction, the first one
    with the hash: the hashes and their order stay, a hash that is not in
    the list changes nothing, later transactions with the same hash keep
    their status, and a transaction just added is the one that is updated. *)
Theorem updateTxStatus_changes_first_match_only (h : jsstring) (st : TxStatus) s :
  map hash (transactions (updateTxStatus h st s)) = map hash (transactions s) /\
  (Forall (fun t => hash t <> h) (transactions s) -> updateTxStatus h st s = s) /\
  (forall before t after,
      transactions s = before ++ t :: after ->
      Forall (fun t' => hash t' <> h) before -> hash t = h ->
      transactions (updateTxStatus h st s) = before ++ with_status st t :: after) /\
  (forall tx,
      transactions (updateTxStatus (hash tx) st (addTransaction tx s))
      = with_status st tx :: transactions s) /\
  meta (updateTxStatus h st s) = meta s /\
  isUnlocked (updateTxStatus h st s) = isUnlocked s /\
  nativeBalances (updateTxStatus h st s) = nativeBalances s.
Proof.
  split; [|split; [|split; [|split]]].
  - apply update_first_hashes.
  - intros Hnone. unfold updateTxStatus. rewrite update_first_no_match by assumption.
    apply setTransactions_same.
  - intros before t after Htxs Hbefore Ht. unfold updateTxStatus.
    cbn [transactions setTransactions]. rewrite Htxs.
    now apply update_first_split.
  - intros tx. unfold updateTxStatus, addTransaction.
    cbn [transactions setTransactions update_first]. now rewrite decide_True.
  - repeat split.
Qed.

Section Storage.
Context `{JSON} `{Engine}.

(** X18. [loadFromStorage] never writes the device and always ends with the
    loading flag down.  With nothing (or the empty string) stored the meta
    becomes [null]; stored text that parses becomes the meta; stored text
    that does not parse leaves the meta as it was and records the message of
    the error.  Lock state, balances and transactions are never touched. *)
Theorem loadFromStorage_outcomes s (d : Device) :
  snd (loadFromStorage s d) = d /\
  isLoading (fst (loadFromStorage s d)) = false /\
  isUnlocked (fst (loadFromStorage s d)) = isUnlocked s /\
  nativeBalances (fst (loadFromStorage s d)) = nativeBalances s /\
  transactions (fst (loadFromStorage s d)) = transactions s /\
  (encrypted_storage d !! WALLET_META_KEY = None \/
   encrypted_storage d !! WALLET_META_KEY = Some [] ->
   meta (fst (loadFromStorage s d)) = None /\
   error (fst (loadFromStorage s d)) = error s) /\
  (forall c raw m,
      encrypted_storage d !! WALLET_META_KEY = Some (c :: raw) ->
      JSON_parse (c :: raw) = Ok m ->
      meta (fst (loadFromStorage s d)) = Some m /\
      error (fst (loadFromStorage s d)) = error s) /\
  (forall c raw e,
      encrypted_storage d !! WALLET_META_KEY = Some (c :: raw) ->
      JSON_parse (c :: raw) = Throw e ->
      meta (fst (loadFromStorage s d)) = meta s /\
      error (fst (loadFromStorage s d)) = Some (message e)).
Proof.
  unfold loadFromStorage.
  destruct (encrypted_storage d !! WALLET_META_KEY) as [[|c raw]|] eqn:Hraw.
  - assert (Hload : loadWalletMeta d = (Ok None, d)).
    { unfold loadWalletMeta, await, EncryptedStorage.getItem. now rewrite Hraw. }
    rewrite Hload. cbn. repeat split; intros; discriminate.
  - rewrite (loadWalletMeta_stored d c raw Hraw).
    destruct (JSON_parse (c :: raw)) as [m|e] eqn:Hparse; cbn;
      do 5 (split; [reflexivity|]);
      (split; [intros [?|?]; discriminate|]);
      split; intros c' raw' x Heq Hp; injection Heq as <- <-;
      rewrite Hparse in Hp; try discriminate; injection Hp as <-; split; reflexivity.
  - assert (Hload : loadWalletMeta d = (Ok None, d)).
    { unfold loadWalletMeta, await, EncryptedStorage.getItem. now rewrite Hraw. }
    rewrite Hload. cbn. repeat split; intros; discriminate.
Qed.

(** X19. The navigator opens on the main tabs only with a wallet that is
    unlocked; locking from the settings sends it to the Auth flow; and after
    a wipe from the settings the store is the initial one again, a reload
    from storage finds no wallet and keeps it so, no PIN loads a phrase, and
    the navigator opens on the Auth flow. *)
Theorem lock_and_wipe_lead_to_Auth (zero : Num) s (d : Device) (pin : jsstring) :
  (AppNavigator.initialRoute (meta s) (isUnlocked s) = AppNavigator.Main <->
   meta s <> None /\ isUnlocked s = true) /\
  AppNavigator.initialRoute (meta (SettingsScreen.handleLock s))
                            (isUnlocked (SettingsScreen.handleLock s))
  = AppNavigator.Auth /\
  SettingsScreen.handleWipeWallet zero s d = (initialState zero, snd (deleteWallet d)) /\
  loadFromStorage (fst (SettingsScreen.handleWipeWallet zero s d))
                  (snd (SettingsScreen.handleWipeWallet zero s d))
  = (initialState zero, snd (deleteWallet d)) /\
  AppNavigator.render (meta (@initialState TokenAsset Num zero))
                      (isUnlocked (@initialState TokenAsset Num zero))
                      (isLoading (@initialState TokenAsset Num zero))
  = AppNavigator.Navigator AppNavigator.Auth /\
  loadMnemonic pin (snd (SettingsScreen.handleWipeWallet zero s d))
  = (Throw NoWalletStored, snd (SettingsScreen.handleWipeWallet zero s d)).
Proof.
  split; [|split; [|split; [|split; [|split]]]].
  - unfold AppNavigator.initialRoute.
    destruct (meta s), (isUnlocked s); cbn; split; try discriminate;
      try (intros [? ?]; congruence); auto.
  - unfold AppNavigator.initialRoute, SettingsScreen.handleLock.
    cbn [meta isUnlocked setUnlocked]. destruct (meta s); reflexivity.
  - reflexivity.
  - unfold SettingsScreen.handleWipeWallet. cbn [deleteWallet fst snd].
    assert (Hwiped : deleteWallet d = (Ok tt, snd (deleteWallet d))) by reflexivity.
    rewrite Hwiped. cbn [fst snd]. unfold loadFromStorage.
    assert (Hload : loadWalletMeta (snd (deleteWallet d)) = (Ok None, snd (deleteWallet d))).
    { unfold loadWalletMeta, await, EncryptedStorage.getItem.
      cbn [deleteWallet snd encrypted_storage await Keychain.resetGenericPassword
             EncryptedStorage.removeItem].
      unfold deleteWallet, await, Keychain.resetGenericPassword,
        EncryptedStorage.removeItem. cbn [encrypted_storage snd].
      now rewrite lookup_delete_eq. }
    rewrite Hload. reflexivity.
  - reflexivity.
  - apply loadMnemonic_absent.
    unfold SettingsScreen.handleWipeWallet, deleteWallet, await,
      Keychain.resetGenericPassword, EncryptedStorage.removeItem.
    cbn [keychain snd]. apply lookup_delete_eq.
Qed.

End Storage.

Section Balances.
Context `{Network}.

Lemma fold_balances (f : string -> result jsstring) (keys : list string) :
  NoDup keys -> forall s,
  (forall k,
      nativeBalances
        (foldl (fun st r => match snd r with
                            | Ok bal => setNativeBalance (fst r) bal st
                            | Throw _ => st
                            end) s (map (fun k => (k, f k)) keys)) !! k
      = if decide (k ∈ keys)
        then match f k with Ok b => Some b | Throw _ => nativeBalances s !! k end
        else nativeBalances s !! k) /\
  (let s' := foldl (fun st r => match snd r with
                                | Ok bal => setNativeBalance (fst r) bal st
                                | Throw _ => st
                                end) s (map (fun k => (k, f k)) keys) in
   meta s' = meta s /\ isUnlocked s' = isUnlocked s /\
   transactions s' = transactions s /\ error s' = error s /\ isLoading s' = isLoading s).
Proof.
  induction 1 as [|k0 keys Hk0 Hnd IH]; intros s.
  - cbn. split; [|repeat split]. intros k. rewrite decide_False; [reflexivity|].
    apply not_elem_of_nil.
  - cbn [map foldl fst snd].
    set (s1 := match f k0 with
               | Ok bal => setNativeBalance k0 bal s
               | Throw _ => s
               end).
    destruct (IH s1) as (IHb & IHm & IHu & IHt & IHe & IHl).
    assert (Hs1 : meta s1 = meta s /\ isUnlocked s1 = isUnlocked s /\
                  transactions s1 = transactions s /\ error s1 = error s /\
                  isLoading s1 = isLoading s).
    { subst s1. destruct (f k0); repeat split. }
    destruct Hs1 as (Hm & Hu & Ht & He & Hl).
    split; [|cbv zeta in *; repeat split; congruence].
    intros k. rewrite IHb.
    destruct (decide (k = k0)) as [->|Hne].
    + rewrite decide_False by assumption.
      rewrite decide_True by apply list_elem_of_here.
      subst s1. destruct (f k0); [apply lookup_insert_eq | reflexivity].
    + assert (Hlk : nativeBalances s1 !! k = nativeBalances s !! k).
      { subst s1. destruct (f k0); [|reflexivity].
        cbn [nativeBalances setNativeBalance]. now rewrite lookup_insert_ne. }
      destruct (decide (k ∈ keys)) as [Hin|Hnin].
      * rewrite decide_True by now apply list_elem_of_further.
        now rewrite Hlk.
      * rewrite decide_False; [exact Hlk|].
        intros Hin. apply elem_of_cons in Hin as [?|?]; contradiction.
Qed.

Lemma mainnet_keys_all : mainnet_keys = CHAIN_KEYS.
Proof. vm_compute. reflexivity. Qed.

Lemma CHAIN_KEYS_NoDup : NoDup CHAIN_KEYS.
Proof.
  apply NoDup_ListNoDup. unfold CHAIN_KEYS.
  repeat constructor; simpl; intuition discriminate.
Qed.

Lemma refreshBalances_with_address s (m : WalletMeta) (c : Z) (addr : jsstring) :
  meta s = Some m -> address m = c :: addr ->
  refreshBalances s
  = setLoading false
      (foldl (fun st r => match snd r with
                          | Ok bal => setNativeBalance (fst r) bal st
                          | Throw _ => st
                          end)
             (setLoading true s)
             (map (fun k => (k, getNativeBalance (c :: addr) k)) mainnet_keys)).
Proof. intros Hmeta Ha. unfold refreshBalances. now rewrite Hmeta, Ha. Qed.

(** X20. [refreshBalances] does nothing without a wallet address.  With one
    it ends with the loading flag down, and a balance changes only for a key
    of [CHAIN_KEYS] whose fetch was fulfilled: a chain whose fetch failed
    keeps the balance it had, and so does every other key.  Meta, lock
    state, transactions and error are not touched. *)
Theorem refreshBalances_writes_fulfilled_fetches_only s :
  (meta s = None \/ (exists m, meta s = Some m /\ address m = []) ->
   refreshBalances s = s) /\
  (forall m, meta s = Some m -> address m <> [] ->
     isLoading (refreshBalances s) = false /\
     (forall k,
         nativeBalances (refreshBalances s) !! k
         = if decide (k ∈ CHAIN_KEYS)
           then match getNativeBalance (address m) k with
                | Ok b => Some b
                | Throw _ => nativeBalances s !! k
                end
           else nativeBalances s !! k) /\
     meta (refreshBalances s) = meta s /\
     isUnlocked (refreshBalances s) = isUnlocked s /\
     transactions (refreshBalances s) = transactions s /\
     error (refreshBalances s) = error s).
Proof.
  split.
  - unfold refreshBalances. intros [-> | (m & -> & ->)]; reflexivity.
  - intros m Hmeta Haddr.
    destruct (address m) as [|c addr] eqn:Ha; [congruence|].
    rewrite (refreshBalances_with_address s m c addr Hmeta Ha).
    rewrite mainnet_keys_all.
    destruct (fold_balances (getNativeBalance (c :: addr)) CHAIN_KEYS CHAIN_KEYS_NoDup
                (setLoading true s)) as (Hb & Hm & Hu & Ht & He & _).
    cbv zeta in *. cbn [isLoading setLoading nativeBalances meta isUnlocked
                         transactions error].
    cbn [meta isUnlocked transactions error setLoading nativeBalances] in Hb, Hm, Hu, Ht, He.
    repeat split; try assumption.
Qed.

End Balances.
End StoreFacts.

(** ** The store properties at a concrete store *)

Lemma handleKey_never_writes_or_locks_witness :
  UnlockScreen.isUnlocked
    (UnlockScreen.handleKey [49]
       (UnlockScreen.tryUnlock (of_string "123456") (UnlockScreen.initial fixture_device)))
  = true.
Proof.
  refine (proj1 (proj2 (handleKey_never_writes_or_locks [49]
            (UnlockScreen.tryUnlock (of_string "123456")
               (UnlockScreen.initial fixture_device)))) _).
  vm_compute. reflexivity.
Defined.

Lemma updateTxStatus_changes_first_match_only_witness :
  walletStore.transactions
    (walletStore.updateTxStatus (of_string "0xabc") walletStore.confirmed fixture_store)
  = [] ++ walletStore.with_status walletStore.confirmed fixture_tx :: [fixture_tx].
Proof.
  refine (proj1 (proj2 (proj2 (updateTxStatus_changes_first_match_only
            (of_string "0xabc") walletStore.confirmed fixture_store)))
            [] fixture_tx [fixture_tx] _ _ _).
  - reflexivity.
  - constructor.
  - reflexivity.
Defined.

Lemma loadFromStorage_outcomes_witness :
  walletStore.meta
    (fst (@walletStore.loadFromStorage unit Z fixture_json fixture_engine
            fixture_store fixture_device)) = None /\
  walletStore.error
    (fst (@walletStore.loadFromStorage unit Z fixture_json fixture_engine
            fixture_store fixture_device)) = walletStore.error fixture_store.
Proof.
  refine (proj1 (proj2 (proj2 (proj2 (proj2 (proj2
            (@loadFromStorage_outcomes unit Z fixture_json fixture_engine
               fixture_store fixture_device)))))) _).
  left. vm_compute. reflexivity.
Defined.

Lemma refreshBalances_writes_fulfilled_fetches_only_witness :
  walletStore.isLoading (@walletStore.refreshBalances unit Z fixture_network fixture_store)
  = false /\
  walletStore.nativeBalances
    (@walletStore.refreshBalances unit Z fixture_network fixture_store) !! "polygon"%string
  = Some (of_string "7.0") /\
  walletStore.nativeBalances
    (@walletStore.refreshBalances unit Z fixture_network fixture_store) !! "bsc"%string
  = Some (of_string "1.5").
Proof.
  destruct (proj2 (@refreshBalances_writes_fulfilled_fetches_only unit Z fixture_network
                     fixture_store) fixture_meta)
    as (Hl & Hb & _).
  - reflexivity.
  - discriminate.
  - split; [exact Hl|]. split.
    + rewrite (Hb "polygon"%string). vm_compute. reflexivity.
    + rewrite (Hb "bsc"%string). vm_compute. reflexivity.
Defined.

(** ** White space around an imported secret *)

Lemma trim_start_all_white_space (l : jsstring) :
  Forall white_space l -> trim_start l = [].
Proof.
  induction 1 as [|c l Hc _ IH]; [reflexivity|].
  cbn [trim_start]. unfold white_space in Hc. now rewrite Hc.
Qed.

Lemma trim_start_app_lead (lead x : jsstring) :
  Forall white_space lead -> trim_start (lead ++ x) = trim_start x.
Proof.
  induction 1 as [|c l Hc _ IH]; [reflexivity|].
  cbn [app trim_start]. unfold white_space in Hc. now rewrite Hc.
Qed.

Lemma trim_end_app_trail (y trail : jsstring) :
  Forall white_space trail -> trim_end (y ++ trail) = trim_end y.
Proof.
  intros Htrail. unfold trim_end. rewrite rev_app_distr.
  rewrite trim_start_app_lead; [reflexivity|]. now apply Forall_rev.
Qed.

Lemma trim_start_app_kept (s t : jsstring) :
  trim_start s <> [] -> trim_start (s ++ t) = trim_start s ++ t.
Proof.
  induction s as [|c s IH]; intros Hne; [cbn in Hne; congruence|].
  cbn [app trim_start] in *. destruct (is_white_space c); [now apply IH | reflexivity].
Qed.

Lemma trim_padded (lead s trail : jsstring) :
  Forall white_space lead -> Forall white_space trail ->
  trim (lead ++ s ++ trail) = trim s.
Proof.
  intros Hlead Htrail. unfold trim. rewrite trim_start_app_lead by assumption.
  destruct (trim_start s) as [|c rest] eqn:Hs.
  - destruct (trim_start_spec s) as (ws & Heq & Hws & _).
    rewrite Hs, app_nil_r in Heq. subst ws.
    rewrite trim_start_app_lead by assumption.
    now rewrite (trim_start_all_white_space trail Htrail).
  - rewrite trim_start_app_kept by (rewrite Hs; discriminate).
    rewrite Hs. now apply trim_end_app_trail.
Qed.

(** X21. White space around a secret does not matter to the import
    functions: a phrase or a private key padded with white space on either
    side is imported exactly as the bare one, error included. *)
Theorem imports_ignore_surrounding_white_space `{ethers.Crypto} `{bip39.Params}
    (lead secret trail : jsstring) (d : Device) :
  Forall white_space lead -> Forall white_space trail ->
  importFromMnemonic (lead ++ secret ++ trail) d = importFromMnemonic secret d /\
  importFromPrivateKey (lead ++ secret ++ trail) d = importFromPrivateKey secret d.
Proof.
  intros Hlead Htrail. unfold importFromMnemonic, importFromPrivateKey.
  now rewrite (trim_padded lead secret trail Hlead Htrail).
Qed.

Lemma imports_ignore_surrounding_white_space_witness :
  @importFromMnemonic fixture_crypto fixture_bip39
    (of_string "  " ++ fixture_phrase ++ [10; 9]) fixture_device
  = @importFromMnemonic fixture_crypto fixture_bip39 fixture_phrase fixture_device /\
  @importFromPrivateKey fixture_crypto
    (of_string "  " ++ fixture_phrase ++ [10; 9]) fixture_device
  = @importFromPrivateKey fixture_crypto fixture_phrase fixture_device.
Proof.
  apply (@imports_ignore_surrounding_white_space fixture_crypto fixture_bip39).
  - repeat constructor.
  - repeat constructor.
Defined.
